(** * gox: the typed code-construction engine (CodeBuilder)

    A shallow embedding of [codebuild.go] and [typesinfer_go123.go]:
    the operand stack, the block-context stack, the construction
    operations and the type-argument inference hook, followed by the
    properties of the engine that are checked against it.

    Embedded from [codebuild.go]: [startBlockStmt], [endBlockStmt],
    [startFuncBody], [insertParams], [endFuncBody], [VarRef], [Val],
    [MapLit], [SliceLit], [ArrayLit], [MemberVal], [fieldVal],
    [structFieldType], [methodTypeOf], [indirect], [Assign], [Call],
    [BinaryOp], [UnaryOp] with their tables, [Defer], [Go] and [EndStmt];
    from [typesinfer_go123.go]: [checker_infer] and [infer]. The [debug]
    flag only adds log lines and is left out. *)

From stdpp Require Import gmap strings list fin_maps pretty.
From Stdlib Require Import ZArith Ascii.

Local Open Scope Z_scope.
Local Set Warnings "-register-all".

(** ** Go's [int]

    [int] is modelled as [Z]; where the source adds to or negates a number
    supplied by the caller, the 64-bit two's-complement wrap-around is
    written out with [int_wrap]. *)

Definition int_min : Z := - 2 ^ 63.
Definition int_max : Z := 2 ^ 63 - 1.

Definition is_int (z : Z) : Prop := int_min <= z <= int_max.

Definition int_wrap (z : Z) : Z := (z + 2 ^ 63) mod 2 ^ 64 - 2 ^ 63.

Definition int_add (a b : Z) : Z := int_wrap (a + b).
Definition int_neg (a : Z) : Z := int_wrap (- a).

(** ** go/types *)

Module types.

Inductive BasicKind :=
| Invalid
| Bool | Int | Int8 | Int16 | Int32 | Int64
| Uint | Uint8 | Uint16 | Uint32 | Uint64 | Uintptr
| Float32 | Float64 | Complex64 | Complex128
| String | UnsafePointer
| UntypedBool | UntypedInt | UntypedRune | UntypedFloat
| UntypedComplex | UntypedString | UntypedNil.

Definition BasicKind_code (k : BasicKind) : Z :=
  match k with
  | Invalid => 0
  | Bool => 1 | Int => 2 | Int8 => 3 | Int16 => 4 | Int32 => 5 | Int64 => 6
  | Uint => 7 | Uint8 => 8 | Uint16 => 9 | Uint32 => 10 | Uint64 => 11
  | Uintptr => 12
  | Float32 => 13 | Float64 => 14 | Complex64 => 15 | Complex128 => 16
  | String => 17 | UnsafePointer => 18
  | UntypedBool => 19 | UntypedInt => 20 | UntypedRune => 21
  | UntypedFloat => 22 | UntypedComplex => 23 | UntypedString => 24
  | UntypedNil => 25
  end.

Definition BasicKind_eqb (a b : BasicKind) : bool :=
  BasicKind_code a =? BasicKind_code b.

(** A variable (parameter, result or struct field): a name and a type. *)
Record Var_ (T : Type) := NewVar_ { var_name : string; var_type : T }.
Arguments NewVar_ {T} _ _.
Arguments var_name {T} _.
Arguments var_type {T} _.
Scheme All for option.
Scheme All for list.
Scheme All for Var_.

(** A signature; [NewFunc] only accepts a signature as the type of a
    function object, so a function carries one directly. *)
Record Signature_ (T : Type) := NewSignature_ {
  sig_recv : option (Var_ T);
  sig_params : list (Var_ T);
  sig_results : list (Var_ T);
  sig_variadic : bool
}.
Arguments NewSignature_ {T} _ _ _ _.
Arguments sig_recv {T} _.
Arguments sig_params {T} _.
Arguments sig_results {T} _.
Arguments sig_variadic {T} _.
Scheme All for Signature_.

Record Func_ (T : Type) := NewFunc_ { func_name : string; func_sig : Signature_ T }.
Arguments NewFunc_ {T} _ _.
Arguments func_name {T} _.
Arguments func_sig {T} _.
Scheme All for Func_.

(** The implementations of the [types.Type] interface that the engine
    meets, and gox's own [refType] (the type of a variable reference). *)
Inductive type :=
| Basic (kind : BasicKind)
| Pointer (elem : type)
| Named (obj : string) (underlying : type) (methods : list (Func_ type))
| Struct (fields : list (Var_ type))
| Signature (sig : Signature_ type)
| Tuple (vars : list (Var_ type))
| Map (key elem : type)
| Slice (elem : type)
| Array (elem : type) (len : Z)
| Interface (methods : list (Func_ type))
| refType (typ : option type).

Abbreviation Var := (Var_ type).
Abbreviation Func := (Func_ type).
Abbreviation Sig := (Signature_ type).

Definition Typ (k : BasicKind) : type := Basic k.

Definition NewSignature (recv : option Var) (params results : list Var)
    (variadic : bool) : type :=
  Signature (NewSignature_ recv params results variadic).

Definition NewMap (key elem : type) : type := Map key elem.
Definition NewSlice (elem : type) : type := Slice elem.
Definition NewInterfaceType (methods : list Func) : type := Interface methods.

(** [Func.Type()] *)
Definition Func_Type (f : Func) : type := Signature (func_sig f).

(** [types.Default]: the default type of an untyped constant type, any
    other type unchanged. *)
Definition Default (t : type) : type :=
  match t with
  | Basic UntypedBool => Typ Bool
  | Basic UntypedInt => Typ Int
  | Basic UntypedRune => Typ Int32
  | Basic UntypedFloat => Typ Float64
  | Basic UntypedComplex => Typ Complex128
  | Basic UntypedString => Typ String
  | _ => t
  end.

(** Structural comparison of two types. *)
Definition list_eqb {A} (eqb : A → A → bool) : list A → list A → bool :=
  fix go l1 l2 :=
    match l1, l2 with
    | [], [] => true
    | x :: l1', y :: l2' => eqb x y && go l1' l2'
    | _, _ => false
    end.

Definition option_eqb {A} (eqb : A → A → bool) (o1 o2 : option A) : bool :=
  match o1, o2 with
  | None, None => true
  | Some x, Some y => eqb x y
  | _, _ => false
  end.

Definition Var_eqb {T} (eqb : T → T → bool) (v w : Var_ T) : bool :=
  String.eqb (var_name v) (var_name w) && eqb (var_type v) (var_type w).

Definition Signature_eqb {T} (eqb : T → T → bool) (s u : Signature_ T) : bool :=
  option_eqb (Var_eqb eqb) (sig_recv s) (sig_recv u)
  && list_eqb (Var_eqb eqb) (sig_params s) (sig_params u)
  && list_eqb (Var_eqb eqb) (sig_results s) (sig_results u)
  && Bool.eqb (sig_variadic s) (sig_variadic u).

Definition Func_eqb {T} (eqb : T → T → bool) (f g : Func_ T) : bool :=
  String.eqb (func_name f) (func_name g)
  && Signature_eqb eqb (func_sig f) (func_sig g).

Fixpoint type_eqb (a b : type) {struct a} : bool :=
  match a, b with
  | Basic k1, Basic k2 => BasicKind_eqb k1 k2
  | Pointer e1, Pointer e2 => type_eqb e1 e2
  | Named o1 u1 m1, Named o2 u2 m2 =>
      String.eqb o1 o2 && type_eqb u1 u2 && list_eqb (Func_eqb type_eqb) m1 m2
  | Struct f1, Struct f2 => list_eqb (Var_eqb type_eqb) f1 f2
  | Signature s1, Signature s2 => Signature_eqb type_eqb s1 s2
  | Tuple v1, Tuple v2 => list_eqb (Var_eqb type_eqb) v1 v2
  | Map k1 e1, Map k2 e2 => type_eqb k1 k2 && type_eqb e1 e2
  | Slice e1, Slice e2 => type_eqb e1 e2
  | Array e1 n1, Array e2 n2 => type_eqb e1 e2 && (n1 =? n2)
  | Interface m1, Interface m2 => list_eqb (Func_eqb type_eqb) m1 m2
  | refType t1, refType t2 => option_eqb type_eqb t1 t2
  | _, _ => false
  end.

(** An object of a scope. *)
Inductive Object :=
| ObjVar (v : Var)
| ObjFunc (f : Func)
| ObjTypeName (name : string) (t : type).

Definition Object_Name (o : Object) : string :=
  match o with
  | ObjVar v => var_name v
  | ObjFunc f => func_name f
  | ObjTypeName n _ => n
  end.

End types.

(** ** go/token *)

Module token.

Definition Token := Z.
Definition Pos := Z.

Definition NoPos : Pos := 0.

Definition ADD : Token := 12.
Definition SUB : Token := 13.
Definition MUL : Token := 14.
Definition QUO : Token := 15.
Definition REM : Token := 16.
Definition AND : Token := 17.
Definition OR : Token := 18.
Definition XOR : Token := 19.
Definition SHL : Token := 20.
Definition SHR : Token := 21.
Definition AND_NOT : Token := 22.
Definition EQL : Token := 39.
Definition LSS : Token := 40.
Definition GTR : Token := 41.
Definition ASSIGN : Token := 42.
Definition NEQ : Token := 44.
Definition LEQ : Token := 45.
Definition GEQ : Token := 46.

End token.

(** ** go/ast: the nodes the engine builds or is handed *)

Module ast.

Inductive Expr :=
| Ident (Name : string)
| BasicLit (Kind : token.Token) (Value : string)
| SelectorExpr (X : Expr) (Sel : Expr)
| CompositeLit (Type_ : option Expr) (Elts : list Expr)
| KeyValueExpr (Key Value : Expr)
| CallExpr (Fun : Expr) (Args : list Expr) (Ellipsis : token.Pos)
| StarExpr (X : Expr)
| ArrayType (Len : option Expr) (Elt : Expr)
| MapType (Key Value : Expr)
| StructType (Fields : list (string * Expr))
| FuncType (Params Results : list (string * Expr))
| InterfaceType (Methods : list (string * Expr)).

Inductive Stmt :=
| AssignStmt (Lhs : list Expr) (Tok : token.Token) (Rhs : list Expr)
| ExprStmt (X : Expr)
| ReturnStmt (Results : list Expr).

End ast.

(** ** Scopes

    A [*types.Scope] is a location in a store of scopes, so that the scope
    held by the current block and the scope handed to [insertParams] are
    one object. *)

Module scope.

Abbreviation loc := nat.

Record Scope := NewScope_ {
  parent : option loc;
  children : list loc;
  elems : gmap string types.Object;
  comment : string
}.

Abbreviation store := (list Scope).

(** [types.NewScope(parent, pos, end, comment)]: a new empty scope, entered
    among the children of [parent] when there is one (the universe scope,
    which takes no children, is never the scope of a block). *)
Definition NewScope (par : option loc) (cmt : string) (st : store) : loc * store :=
  let l := length st in
  let st' :=
    match par with
    | Some p => alter (λ s, NewScope_ (parent s) (children s ++ [l]) (elems s) (comment s)) p st
    | None => st
    end in
  (l, st' ++ [NewScope_ par [] ∅ cmt]).

(** [Scope.Lookup(name)]: the object of that name in this scope itself. *)
Definition Lookup (st : store) (l : loc) (name : string) : option types.Object :=
  s ← st !! l; elems s !! name.

(** [Scope.Insert(obj)]: a scope that already holds an object of that
    name is left unchanged. *)
Definition Insert (l : loc) (obj : types.Object) (st : store) : store :=
  match Lookup st l (types.Object_Name obj) with
  | Some _ => st
  | None =>
      alter (λ s, NewScope_ (parent s) (children s)
                    (<[types.Object_Name obj := obj]> (elems s)) (comment s)) l st
  end.

End scope.

(** ** Failures

    A panic of the source ends the operation; the engine state it leaves
    behind is kept next to the error (see [M] below). *)

Inductive fmtarg :=
| ArgType (t : option types.type)
| ArgInt (z : Z)
| ArgString (s : string).

(** [Panic] is [panic(msg)] and [LogPanic] is [log.Panicf] or [log.Panicln]
    with its arguments; [RuntimeError] is a panic of the Go run time (an
    index out of range, a negative length, a nil pointer). [StackUnderflow],
    [NotAValue] and [MismatchedElementTypes] are the failures that the spec
    names for the parts modelled from it; [External] is raised by a
    collaborator. *)
Inductive error :=
| StackUnderflow
| NotAValue
| MismatchedElementTypes
| RuntimeError (msg : string)
| Panic (msg : string)
| LogPanic (format : string) (args : list fmtarg)
| External (msg : string).

Inductive result (A : Type) :=
| Ok (a : A)
| Err (e : error).
Arguments Ok {A} a.
Arguments Err {A} e.

#[global] Instance result_ret : MRet result := λ A a, Ok a.
#[global] Instance result_bind : MBind result := λ A B f m,
  match m with
  | Ok a => f a
  | Err e => Err e
  end.

(** [s[i]] on a slice. *)
Definition index {A} (s : list A) (i : Z) : result A :=
  if (i <? 0) || (Z.of_nat (length s) <=? i)
  then Err (RuntimeError "index out of range")
  else match s !! Z.to_nat i with
       | Some x => Ok x
       | None => Err (RuntimeError "index out of range")
       end.

(** [make([]T, n)]: only the check on [n] matters, the elements are
    written before the slice is read. *)
Definition make (n : Z) : result unit :=
  if n <? 0 then Err (RuntimeError "makeslice: len out of range") else Ok tt.

(** [for i := start; i < start + count; i++ { body }], collecting what each
    round computes; the first failing round ends the loop. *)
Fixpoint for_range {A} (start : Z) (count : nat) (body : Z → result A)
    : result (list A) :=
  match count with
  | O => Ok []
  | S count' =>
      x ← body start;
      xs ← for_range (start + 1) count' body;
      Ok (x :: xs)
  end.

(** ** The operand stack (package internal) *)

Module internal.

(** [internal.Elem]: the fields [Val] and [Type] that [codebuild.go] fills
    in ([Typ] here); the type is nil for the blank identifier. *)
Record Elem := NewElem { Val : ast.Expr; Typ : option types.type }.

Abbreviation Stack := (list Elem).

(** The operand stack [internal.Stack] is declared outside codebuild.go; its
    primitives are modelled from section 4.1 of the spec. The top of the
    stack is the end of the list. *)

(** Modelled from the spec: [Stack.Init], defined outside codebuild.go, makes
    the empty stack. *)
Definition Init : Stack := [].

(** Modelled from the spec: [Stack.Len], defined outside codebuild.go, is the
    current depth. *)
Definition Len (s : Stack) : Z := Z.of_nat (length s).

(** Modelled from the spec: [Stack.Push] (push(op)), defined outside
    codebuild.go, puts an operand on top. *)
Definition Push (e : Elem) (s : Stack) : Stack := s ++ [e].

(** Modelled from the spec: the check shared by the primitives of
    [internal.Stack] that take a count; they fail with [StackUnderflow] if
    the count exceeds the current depth. A negative count, which the
    contract does not cover, is reported as the slice-bounds failure of the
    Go run time. *)
Definition check_count (n : Z) (s : Stack) : result unit :=
  if n <? 0 then Err (RuntimeError "slice bounds out of range")
  else if Len s <? n then Err StackUnderflow
  else Ok tt.

(** Modelled from the spec: [Stack.GetArgs] (getArgs(n)), defined outside
    codebuild.go, gives the top [n] operands in their original order. *)
Definition GetArgs (n : Z) (s : Stack) : result (list Elem) :=
  _ ← check_count n s; Ok (drop (length s - Z.to_nat n) s).

(** Modelled from the spec: [Stack.PopN] (popN(n)), defined outside
    codebuild.go, removes the top [n] operands. *)
Definition PopN (n : Z) (s : Stack) : result Stack :=
  _ ← check_count n s; Ok (take (length s - Z.to_nat n) s).

(** Modelled from the spec: [Stack.Ret] (replaceTopN(n, op)), defined outside
    codebuild.go, pops [n] operands and pushes one result. *)
Definition Ret (n : Z) (e : Elem) (s : Stack) : result Stack :=
  s' ← PopN n s; Ok (Push e s').

(** Modelled from the spec: [Stack.Get] (get(offsetFromTop)), defined outside
    codebuild.go; negative indices index from the top, [-1] being the top. *)
Definition Get (idx : Z) (s : Stack) : result Elem :=
  let i := Len s + idx in
  if (i <? 0) || (Len s <=? i) then Err StackUnderflow
  else match s !! Z.to_nat i with
       | Some e => Ok e
       | None => Err StackUnderflow
       end.

(** Modelled from the spec: [Stack.Pop] (pop() -> op), defined outside
    codebuild.go, removes the top operand and returns it. *)
Definition Pop (s : Stack) : result (Elem * Stack) :=
  e ← Get (-1) s; s' ← PopN 1 s; Ok (e, s').

(** Modelled from the spec: [Stack.SetLen], defined outside codebuild.go,
    truncates the stack to the given depth (section 4.2: the stack is
    truncated to the base of the block); a depth that is negative or above
    the current one is no truncation and is reported as the slice-bounds
    failure of the Go run time. *)
Definition SetLen (n : Z) (s : Stack) : result Stack :=
  if (n <? 0) || (Len s <? n)
  then Err (RuntimeError "slice bounds out of range")
  else Ok (take (Z.to_nat n) s).

End internal.

(** ** The engine state *)

(** The owner of a block: [startFuncBody] passes the function; other
    constructs implement the [codeBlock] interface outside codebuild.go. *)
Inductive codeBlock :=
| BlockFunc (fn : types.Func)
| BlockOther (kind : string).

Record codeBlockCtx := NewCodeBlockCtx {
  codeBlock_ : option codeBlock;
  scope : option scope.loc;
  base : Z;
  stmts : list ast.Stmt
}.

Record funcBodyCtx := NewFuncBodyCtx {
  codeBlockCtx_ : codeBlockCtx;
  fn : option types.Func
}.

(** [Package] is declared outside codebuild.go; these are the fields
    that [codebuild.go] reads: the operator prefix, the scope of the
    builtin package and the scope of the package under construction. *)
Record Package := NewPackage {
  prefix_Operator : string;
  builtin_Scope : scope.loc;
  Types_Scope : scope.loc
}.

Record ValueDecl := NewValueDecl {
  decl_tok : token.Token;
  decl_typ : option types.type;
  decl_names : list string
}.

(** [heap] is the store the scope pointers of the engine point into. *)
Record CodeBuilder := NewCodeBuilder {
  stk : internal.Stack;
  current : funcBodyCtx;
  pkg : Package;
  varDecl : option ValueDecl;
  heap : scope.store
}.

Definition set_stk (s : internal.Stack) (p : CodeBuilder) : CodeBuilder :=
  NewCodeBuilder s (current p) (pkg p) (varDecl p) (heap p).

Definition set_current (c : funcBodyCtx) (p : CodeBuilder) : CodeBuilder :=
  NewCodeBuilder (stk p) c (pkg p) (varDecl p) (heap p).

Definition set_heap (h : scope.store) (p : CodeBuilder) : CodeBuilder :=
  NewCodeBuilder (stk p) (current p) (pkg p) (varDecl p) h.

Definition set_codeBlockCtx (c : codeBlockCtx) (p : CodeBuilder) : CodeBuilder :=
  set_current (NewFuncBodyCtx c (fn (current p))) p.

Definition set_fn (f : option types.Func) (p : CodeBuilder) : CodeBuilder :=
  set_current (NewFuncBodyCtx (codeBlockCtx_ (current p)) f) p.

Definition append_stmt (s : ast.Stmt) (p : CodeBuilder) : CodeBuilder :=
  let c := codeBlockCtx_ (current p) in
  set_codeBlockCtx (NewCodeBlockCtx (codeBlock_ c) (scope c) (base c) (stmts c ++ [s])) p.

(** An operation of the engine: it ends with a value or with a panic, and
    in both cases leaves an engine state. *)
Definition M (A : Type) : Type := CodeBuilder → result A * CodeBuilder.

#[global] Instance M_ret : MRet M := λ A a p, (Ok a, p).
#[global] Instance M_bind : MBind M := λ A B f m p,
  match m p with
  | (Ok a, p') => f a p'
  | (Err e, p') => (Err e, p')
  end.

Definition lift {A} (r : result A) : M A := λ p, (r, p).
Definition panic {A} (e : error) : M A := λ p, (Err e, p).
Definition gets {A} (f : CodeBuilder → A) : M A := λ p, (Ok (f p), p).
Definition modify (f : CodeBuilder → CodeBuilder) : M unit := λ p, (Ok tt, f p).

(** The stack primitives on the engine's own stack [p.stk]. *)
Definition stk_Len : M Z := gets (λ p, internal.Len (stk p)).
Definition stk_Push (e : internal.Elem) : M unit :=
  modify (λ p, set_stk (internal.Push e (stk p)) p).
Definition stk_GetArgs (n : Z) : M (list internal.Elem) :=
  λ p, (internal.GetArgs n (stk p), p).
Definition stk_Get (idx : Z) : M internal.Elem :=
  λ p, (internal.Get idx (stk p), p).
Definition stk_update (f : internal.Stack → result internal.Stack) : M unit :=
  λ p, match f (stk p) with
       | Ok s => (Ok tt, set_stk s p)
       | Err e => (Err e, p)
       end.
Definition stk_PopN (n : Z) : M unit := stk_update (internal.PopN n).
Definition stk_Ret (n : Z) (e : internal.Elem) : M unit := stk_update (internal.Ret n e).
Definition stk_SetLen (n : Z) : M unit := stk_update (internal.SetLen n).
Definition stk_Pop : M internal.Elem :=
  λ p, match internal.Pop (stk p) with
       | Ok (e, s) => (Ok e, set_stk s p)
       | Err e => (Err e, p)
       end.

(** ** Collaborators

    The helpers below are called by [codebuild.go] and declared outside
    codebuild.go; the engine is stated for any implementation of them. A
    helper that may panic returns a [result]. *)

Inductive any :=
| AnyInt (z : Z)
| AnyString (s : string)
| AnyObject (o : types.Object)
| AnyOther (kind : string).

Record AutoVar := NewAutoVar_ { av_name : string; av_typ : option types.type }.

Inductive VarRefArg :=
| RefNil
| RefAutoVar (v : AutoVar)
| RefVar (v : types.Var)
| RefOther (dynamicType : string).

Record Externals := NewExternals {
  toExpr : Package → any → result internal.Elem;
  toObject : Package → types.Object → result internal.Elem;
  toFuncCall : Package → internal.Elem → list internal.Elem → token.Pos
               → result internal.Elem;
  toMapType : Package → types.type → result ast.Expr;
  toSliceType : Package → types.type → result ast.Expr;
  toArrayType : Package → types.type → result ast.Expr;
  AssignableTo : option types.type → types.type → bool;
  assignMatchType : Package → option types.type → option types.type → result unit;
  ident : string → ast.Expr;
  underscore : ast.Expr;
  (* the Oracle's default-typing rule for operands that are all untyped
     constants of differing types (section 4.3 of the spec) *)
  defaultTyping : list types.type → result types.type
}.

(** Modelled from the spec: [TyEmptyInterface], defined outside codebuild.go,
    is the empty interface type. *)
Definition TyEmptyInterface : types.type := types.NewInterfaceType [].

(** The basic kinds from [UntypedBool] on are the untyped ones. *)
Definition isUntyped (t : types.type) : bool :=
  match t with
  | types.Basic k => 19 <=? types.BasicKind_code k
  | _ => false
  end.

(** ** The engine *)

Section Engine.

Context (ext : Externals).

Definition current_ctx (p : CodeBuilder) : codeBlockCtx := codeBlockCtx_ (current p).

(** Modelled from the spec: the check of [boundElementType], defined outside
    codebuild.go, that an operand may be used as a value; an operand without
    a type may not. *)
Definition typeOf (e : internal.Elem) : result types.type :=
  match internal.Typ e with
  | Some t => Ok t
  | None => Err NotAValue
  end.

(** Modelled from the spec: [boundElementType], defined outside codebuild.go.
    Section 4.3: the bound type of the operands at positions
    [base], [base + step], ... below [max] is their common type when all
    are identical; when they differ and all are untyped constants it is
    what the Oracle's default-typing rule gives; otherwise the inference
    fails with [MismatchedElementTypes]. An operand that may not be used as
    a value (it carries no type) is rejected. *)
Definition boundElementType (elts : list internal.Elem) (base max step : Z)
    : result types.type :=
  sel ← for_range 0 (Z.to_nat ((max - base + step - 1) / step))
        (λ j, index elts (base + j * step));
  ts ← mapM typeOf sel;
  match ts with
  | [] => Err MismatchedElementTypes
  | t :: rest =>
      if forallb (types.type_eqb t) rest then Ok t
      else if forallb isUntyped ts then defaultTyping ext ts
      else Err MismatchedElementTypes
  end.

Definition startBlockStmt (current_ : option codeBlock) (comment : string)
    : M codeBlockCtx :=
  λ p,
    let '(sc, h) := scope.NewScope (scope (current_ctx p)) comment (heap p) in
    let old := current_ctx p in
    (Ok old,
     set_codeBlockCtx
       (NewCodeBlockCtx current_ (Some sc) (internal.Len (stk p)) [])
       (set_heap h p)).

Definition endBlockStmt (old : codeBlockCtx) : M (list ast.Stmt) :=
  stmts_ ← gets (λ p, stmts (current_ctx p));
  b ← gets (λ p, base (current_ctx p));
  stk_SetLen b;;
  modify (set_codeBlockCtx old);;
  mret stmts_.

Definition scope_Insert (sc : option scope.loc) (obj : types.Object) : M unit :=
  match sc with
  | Some l => modify (λ p, set_heap (scope.Insert l obj (heap p)) p)
  | None => panic (RuntimeError "nil pointer dereference")
  end.

Fixpoint insertParams (sc : option scope.loc) (params : list types.Var) : M unit :=
  match params with
  | [] => mret tt
  | v :: rest =>
      (if negb (String.eqb (types.var_name v) "")
       then scope_Insert sc (types.ObjVar v)
       else mret tt);;
      insertParams sc rest
  end.

(** [typ.(Signature)]: the type assertion of [startFuncBody]. *)
Definition as_Signature (t : types.type) : result types.Sig :=
  match t with
  | types.Signature sig => Ok sig
  | _ => Err (RuntimeError "interface conversion: types.Type is not *types.Signature")
  end.

Definition startFuncBody (f : types.Func) : M funcBodyCtx :=
  oldfn ← gets (λ p, fn (current p));
  modify (set_fn (Some f));;
  oldctx ← startBlockStmt (Some (BlockFunc f)) ("func " +:+ types.func_name f);
  sc ← gets (λ p, scope (current_ctx p));
  sig ← lift (as_Signature (types.Func_Type f));
  insertParams sc (types.sig_params sig);;
  insertParams sc (types.sig_results sig);;
  mret (NewFuncBodyCtx oldctx oldfn).

Definition endFuncBody (old : funcBodyCtx) : M (list ast.Stmt) :=
  modify (set_fn (fn old));;
  endBlockStmt (codeBlockCtx_ old).

Definition VarRef (ref : VarRefArg) : M unit :=
  match ref with
  | RefNil => stk_Push (internal.NewElem (underscore ext) None)
  | RefAutoVar v =>
      stk_Push (internal.NewElem (ident ext (av_name v))
                  (Some (types.refType (av_typ v))))
  | RefVar v =>
      stk_Push (internal.NewElem (ident ext (types.var_name v))
                  (Some (types.refType (Some (types.var_type v)))))
  | RefOther ty => panic (LogPanic "TODO: VarRef" [ArgString ty])
  end.

Definition Val (v : any) : M unit :=
  pkg_ ← gets pkg;
  e ← lift (toExpr ext pkg_ v);
  stk_Push e.

(** A variadic flag [keyVal ...bool] or [ellipsis ...bool] that is given
    and true. *)
Definition flag_set (flag : list bool) : bool :=
  match flag with
  | b :: _ => b
  | [] => false
  end.

Definition check_assignable (what : string) (check : bool) (val : types.type)
    (arg : internal.Elem) : result ast.Expr :=
  if check && negb (AssignableTo ext (internal.Typ arg) val)
  then Err (LogPanic what [ArgType (internal.Typ arg); ArgType (Some val)])
  else Ok (internal.Val arg).

Definition MapLit (t : option (types.type * types.type)) (arity : Z) : M unit :=
  pkg_ ← gets pkg;
  if arity =? 0 then
    let t' := match t with
              | Some (k, e) => types.NewMap k e
              | None => types.NewMap (types.Typ types.String) TyEmptyInterface
              end in
    te ← lift (toMapType ext pkg_ t');
    stk_Push (internal.NewElem (ast.CompositeLit (Some te) []) (Some t'))
  else if negb (Z.land arity 1 =? 0) then
    panic (Panic "TODO: MapLit - invalid arity")
  else
    args ← stk_GetArgs arity;
    let check := bool_decide (is_Some t) in
    '(key, val, t') ←
      match t with
      | Some (k, e) => mret (k, e, types.NewMap k e)
      | None =>
          k ← lift (boundElementType args 0 arity 2);
          e ← lift (boundElementType args 1 arity 2);
          mret (k, e, types.NewMap (types.Default k) (types.Default e))
      end;
    lift (make (Z.shiftr arity 1));;
    (* for i := 0; i < arity; i += 2, with i = 2 * j *)
    elts ← lift (for_range 0 (Z.to_nat (Z.shiftr arity 1)) (λ j,
              let i := 2 * j in
              k ← index args i;
              e ← index args (i + 1);
              check_assignable "TODO: MapLit - can't assign %v to %v\n" check key k;;
              check_assignable "TODO: MapLit - can't assign %v to %v\n" check val e;;
              Ok (ast.KeyValueExpr (internal.Val k) (internal.Val e))));
    te ← lift (toMapType ext pkg_ t');
    stk_Ret arity (internal.NewElem (ast.CompositeLit (Some te) elts) (Some t')).

Definition SliceLit (t : option types.type) (arity : Z) (keyVal : list bool)
    : M unit :=
  if flag_set keyVal then panic (Panic "TODO: SliceLit in keyVal mode") else
  pkg_ ← gets pkg;
  if arity =? 0 then
    let t' := match t with
              | Some e => types.NewSlice e
              | None => types.NewSlice TyEmptyInterface
              end in
    te ← lift (toSliceType ext pkg_ t');
    stk_Push (internal.NewElem (ast.CompositeLit (Some te) []) (Some t'))
  else
    args ← stk_GetArgs arity;
    let check := bool_decide (is_Some t) in
    '(val, t') ←
      match t with
      | Some e => mret (e, types.NewSlice e)
      | None =>
          e ← lift (boundElementType args 0 arity 1);
          mret (e, types.NewSlice (types.Default e))
      end;
    lift (make arity);;
    elts ← lift (mapM (check_assignable "TODO: SliceLit - can't assign %v to %v\n"
                         check val) args);
    te ← lift (toSliceType ext pkg_ t');
    stk_Ret arity (internal.NewElem (ast.CompositeLit (Some te) elts) (Some t')).

(** [t] is the element type and the length of the array type; a nil [t]
    fails at [t.Elem()]. *)
Definition ArrayLit (t : option (types.type * Z)) (arity : Z) (keyVal : list bool)
    : M unit :=
  if flag_set keyVal then panic (Panic "TODO: ArrayLit in keyVal mode") else
  match t with
  | None => panic (RuntimeError "nil pointer dereference")
  | Some (val, n) =>
      if (0 <=? n) && (n <? arity) then
        panic (LogPanic "TODO: array index %v out of bounds [0:%v]\n"
                 [ArgInt arity; ArgInt n])
      else
        args ← stk_GetArgs arity;
        lift (make arity);;
        elts ← lift (mapM (check_assignable "TODO: ArrayLit - can't assign %v to %v\n"
                             true val) args);
        pkg_ ← gets pkg;
        te ← lift (toArrayType ext pkg_ (types.Array val n));
        stk_Ret arity (internal.NewElem (ast.CompositeLit (Some te) elts)
                         (Some (types.Array val n)))
  end.

Definition structFieldType (fields : list types.Var) (name : string)
    : option types.type :=
  types.var_type <$> List.find (λ fld, String.eqb (types.var_name fld) name) fields.

Definition fieldVal (x : ast.Expr) (struc : list types.Var) (name : string) : M unit :=
  match structFieldType struc name with
  | Some t =>
      stk_Ret 1 (internal.NewElem (ast.SelectorExpr x (ident ext name)) (Some t))
  | None => panic (Panic ("TODO: member not found - " +:+ name))
  end.

Definition methodTypeOf (typ : types.type) : result types.type :=
  match typ with
  | types.Signature sig =>
      Ok (types.NewSignature None (types.sig_params sig) (types.sig_results sig)
            (types.sig_variadic sig))
  | _ => Err (Panic "TODO: methodTypeOf")
  end.

Definition indirect (typ : option types.type) : option types.type :=
  match typ with
  | Some (types.Pointer elem) => Some elem
  | _ => typ
  end.

(** The loop of [MemberVal] over the methods of a named type: the first
    method of that name. *)
Definition findMethod (methods : list types.Func) (name : string)
    : option types.Func :=
  List.find (λ method, String.eqb (types.func_name method) name) methods.

Definition MemberVal (name : string) : M unit :=
  arg ← stk_Get (-1);
  match indirect (internal.Typ arg) with
  | Some (types.Named _ underlying methods) =>
      match findMethod methods name with
      | Some method =>
          mt ← lift (methodTypeOf (types.Func_Type method));
          stk_Ret 1 (internal.NewElem
                       (ast.SelectorExpr (internal.Val arg) (ident ext name))
                       (Some mt))
      | None =>
          match underlying with
          | types.Struct struc => fieldVal (internal.Val arg) struc name
          | _ => panic (Panic ("TODO: member not found - " +:+ name))
          end
      end
  | Some (types.Struct o) => fieldVal (internal.Val arg) o name
  | o => panic (LogPanic "TODO: MemberVal - unexpected type:" [ArgType o])
  end.

(** [v ...int]: the number of sources, the number of targets when left out. *)
Definition Assign_rhs (lhs : Z) (v : list Z) : Z :=
  match v with
  | r :: _ => r
  | [] => lhs
  end.

Definition Assign (lhs : Z) (v : list Z) : M unit :=
  let rhs := Assign_rhs lhs v in
  args ← stk_GetArgs (int_add lhs rhs);
  lift (make lhs);;
  lift (make rhs);;
  pkg_ ← gets pkg;
  '(Lhs, Rhs) ←
    (if lhs =? rhs then
       prs ← lift (for_range 0 (Z.to_nat lhs) (λ i,
                l ← index args i;
                r ← index args (int_add lhs i);
                assignMatchType ext pkg_ (internal.Typ l) (internal.Typ r);;
                Ok (internal.Val l, internal.Val r)));
       mret (prs.*1, prs.*2)
     else if rhs =? 1 then
       src ← lift (index args lhs);
       match internal.Typ src with
       | Some (types.Tuple rhsVals) =>
           if negb (lhs =? Z.of_nat (length rhsVals)) then
             panic (Panic "TODO: unmatch assignment")
           else
             ls ← lift (for_range 0 (Z.to_nat lhs) (λ i,
                     l ← index args i;
                     rv ← index rhsVals i;
                     assignMatchType ext pkg_ (internal.Typ l)
                       (Some (types.var_type rv));;
                     Ok (internal.Val l)));
             mret (ls, [internal.Val src])
       | _ => panic (Panic "TODO: unmatch assignment")
       end
     else panic (Panic "TODO: unmatch assignment"));
  modify (append_stmt (ast.AssignStmt Lhs token.ASSIGN Rhs));;
  stk_PopN (int_add lhs rhs).

Definition Call (n : Z) (ellipsis : list bool) : M unit :=
  args ← stk_GetArgs n;
  let n' := int_add n 1 in
  fn_ ← stk_Get (int_neg n');
  let hasEllipsis : token.Pos := if flag_set ellipsis then 1 else token.NoPos in
  pkg_ ← gets pkg;
  ret ← lift (toFuncCall ext pkg_ fn_ args hasEllipsis);
  stk_Ret n' ret.

(** The tables [binaryOps] and [unaryOps]: arrays indexed by the token, as
    long as their greatest key demands, empty where no name is given. *)
Definition binaryOps (op : token.Token) : result string :=
  if (op <? 0) || (46 <? op) then Err (RuntimeError "index out of range")
  else Ok (match op with
           | 12 => "Add" | 13 => "Sub" | 14 => "Mul" | 15 => "Quo" | 16 => "Rem"
           | 17 => "And" | 18 => "Or" | 19 => "Xor" | 22 => "AndNot"
           | 20 => "Lsh" | 21 => "Rsh"
           | 40 => "LT" | 45 => "LE" | 41 => "GT" | 46 => "GE"
           | 39 => "EQ" | 44 => "NE"
           | _ => ""
           end)%string.

Definition unaryOps (op : token.Token) : result string :=
  if (op <? 0) || (19 <? op) then Err (RuntimeError "index out of range")
  else Ok (match op with
           | 13 => "Neg"
           | 19 => "Not"
           | _ => ""
           end)%string.

Definition operatorCall (arity : Z) (opname : token.Token → result string)
    (op : token.Token) : M unit :=
  pkg_ ← gets pkg;
  args ← stk_GetArgs arity;
  suffix ← lift (opname op);
  let name := prefix_Operator pkg_ +:+ suffix in
  fn_ ← gets (λ p, scope.Lookup (heap p) (builtin_Scope pkg_) name);
  match fn_ with
  | None => panic (Panic "TODO: operator not matched")
  | Some o =>
      callee ← lift (toObject ext pkg_ o);
      ret ← lift (toFuncCall ext pkg_ callee args token.NoPos);
      stk_Ret arity ret
  end.

Definition BinaryOp (op : token.Token) : M unit := operatorCall 2 binaryOps op.

Definition UnaryOp (op : token.Token) : M unit := operatorCall 1 unaryOps op.

Definition Defer : M unit := panic (Panic "CodeBuilder.Defer").

Definition Go : M unit := panic (Panic "CodeBuilder.Go").

Definition EndStmt : M unit :=
  len ← stk_Len;
  b ← gets (λ p, base (current_ctx p));
  let n := len - b in
  if 0 <? n then
    if negb (n =? 1) then
      panic (Panic "syntax error: unexpected newline, expecting := or = or comma")
    else
      e ← stk_Pop;
      modify (append_stmt (ast.ExprStmt (internal.Val e)))
  else mret tt.

(** ** The construction operations and their declared arities *)

Inductive operation :=
| OpCall (n : Z) (ellipsis : list bool)
| OpBinaryOp (op : token.Token)
| OpUnaryOp (op : token.Token)
| OpAssign (lhs : Z) (v : list Z)
| OpMapLit (t : option (types.type * types.type)) (arity : Z)
| OpSliceLit (t : option types.type) (arity : Z) (keyVal : list bool)
| OpArrayLit (t : option (types.type * Z)) (arity : Z) (keyVal : list bool)
| OpMemberVal (name : string).

Definition run (o : operation) : M unit :=
  match o with
  | OpCall n ellipsis => Call n ellipsis
  | OpBinaryOp op => BinaryOp op
  | OpUnaryOp op => UnaryOp op
  | OpAssign lhs v => Assign lhs v
  | OpMapLit t arity => MapLit t arity
  | OpSliceLit t arity keyVal => SliceLit t arity keyVal
  | OpArrayLit t arity keyVal => ArrayLit t arity keyVal
  | OpMemberVal name => MemberVal name
  end.

Definition consumes (o : operation) : Z :=
  match o with
  | OpCall n _ => n + 1
  | OpBinaryOp _ => 2
  | OpUnaryOp _ => 1
  | OpAssign lhs v => lhs + Assign_rhs lhs v
  | OpMapLit _ arity | OpSliceLit _ arity _ | OpArrayLit _ arity _ => arity
  | OpMemberVal _ => 1
  end.

Definition produces (o : operation) : Z :=
  match o with
  | OpAssign _ _ => 0
  | _ => 1
  end.

(** The numbers an operation is called with are Go [int]s. *)
Definition int_args (o : operation) : Prop :=
  match o with
  | OpCall n _ => is_int n
  | OpAssign lhs v => is_int lhs ∧ is_int (Assign_rhs lhs v)
  | OpMapLit _ arity | OpSliceLit _ arity _ | OpArrayLit _ arity _ => is_int arity
  | _ => True
  end.

End Engine.

(** ** Type-argument inference ([typesinfer_go123.go]) *)

Module infer.

Inductive operandMode :=
| invalid | novalue | builtin | typexpr | constant_ | variable | mapindex
| value | nilvalue | commaok | commaerr | cgofunc.

(** A Go [error] made by [fmt.Errorf]: its message. *)
Inductive goerror := errorString (s : string).

Definition Error (e : goerror) : string :=
  match e with errorString s => s end.

(** [fmt.Sprintf] for formats whose only verb is [%s]. *)
Fixpoint Sprintf (format : string) (args : list string) : string :=
  match format with
  | String "%"%char (String "s"%char rest) =>
      match args with
      | a :: args' => a +:+ Sprintf rest args'
      | [] => "%!s(MISSING)" +:+ Sprintf rest []
      end
  | String c rest => String c (Sprintf rest args)
  | EmptyString => EmptyString
  end.

Definition Errorf (format : string) (args : list string) : goerror :=
  errorString (Sprintf format args).

Definition CannotInferTypeArgs : Z := 138.

Section Infer.

(** The checker, positions, type parameters and operands of go/types. *)
Context {Checker positioner TypeParam operand : Type}.

Record errorDesc := NewErrorDesc { posn : positioner; msg : string }.

Record error_ := NewError_ {
  check : Checker;
  desc : list errorDesc;
  code : Z;
  soft : bool
}.

(** [go/types.(Checker).infer], linked in by name: it returns the inferred
    type arguments and records its diagnostics in the [error_] it is
    handed, which is returned here next to the result. *)
Context (checker_infer123 :
  Checker → positioner → list TypeParam → list types.type → list types.Var
  → list operand → bool → error_ → list types.type * error_).

(** [types.NewChecker(conf, pkg.Fset, pkg.Types, nil)] *)
Context (NewChecker : Package → Checker).

Definition checker_infer (check_ : Checker) (posn_ : positioner)
    (tparams : list TypeParam) (targs : list types.type)
    (params : list types.Var) (args : list operand)
    : list types.type * option goerror :=
  let _err := NewError_ check_ [] CannotInferTypeArgs false in
  let '(result, _err) :=
    checker_infer123 check_ posn_ tparams targs params args true _err in
  let err :=
    if 0 <? Z.of_nat (length (desc _err)) then
      match desc _err with
      | d :: _ => Some (Errorf "%s" [msg d])
      | [] => None
      end
    else None in
  (result, err).

(** The error callback of the configuration can only set [err] before
    [checker_infer] returns, and the return assigns [err] again. *)
Definition infer (pkg_ : Package) (posn_ : positioner)
    (tparams : list TypeParam) (targs : list types.type)
    (params : list types.Var) (args : list operand)
    : list types.type * option goerror :=
  let checker := NewChecker pkg_ in
  checker_infer checker posn_ tparams targs params args.

End Infer.

End infer.

(** ** What happens inside a block

    The operations that push an operand ([Val], [VarRef]) and the one that
    ends a statement, run one after the other until one of them panics. *)

Inductive blockStep :=
| StepVal (v : any)
| StepVarRef (ref : VarRefArg)
| StepEndStmt.

Definition runStep (ext : Externals) (s : blockStep) : M unit :=
  match s with
  | StepVal v => Val ext v
  | StepVarRef ref => VarRef ext ref
  | StepEndStmt => EndStmt
  end.

Fixpoint runSteps (ext : Externals) (body : list blockStep) : M unit :=
  match body with
  | [] => mret tt
  | s :: rest => runStep ext s;; runSteps ext rest
  end.

(** ** Vocabulary of the properties *)

Definition EndStmt_panic : error :=
  Panic "syntax error: unexpected newline, expecting := or = or comma".

Definition defaultMapType : types.type :=
  types.NewMap (types.Typ types.String) TyEmptyInterface.

(** The signature of a method without its receiver. *)
Definition withoutReceiver (method : types.Func) : types.type :=
  types.NewSignature None (types.sig_params (types.func_sig method))
    (types.sig_results (types.func_sig method))
    (types.sig_variadic (types.func_sig method)).

(** The state inside the block entered at [p0]: the operands of [p0] are
    still there, below the base of the block. *)
Definition inside_block (p0 q : CodeBuilder) : Prop :=
  (∃ extra, stk q = stk p0 ++ extra)
  ∧ base (current_ctx q) = internal.Len (stk p0)
  ∧ fn (current q) = fn (current p0).

(** The declared variables that [insertParams] hands to [Scope.Insert]. *)
Definition named (params : list types.Var) : list types.Var :=
  List.filter (λ v, negb (String.eqb (types.var_name v) "")) params.

(** The first of them that has the given name. *)
Definition firstNamed (name : string) (params : list types.Var) : option types.Var :=
  List.find (λ v, String.eqb (types.var_name v) name) (named params).

Definition insertAll (sc : scope.loc) (vars : list types.Var) (h : scope.store)
    : scope.store :=
  foldl (λ h v, scope.Insert sc (types.ObjVar v) h) h vars.

Definition unmatch : error := Panic "TODO: unmatch assignment".

(** Source type [val] may be assigned to the target whose operand type is
    [varRef]: [assignMatchType] returns instead of panicking. *)
Definition assignable (ext : Externals) (pkg_ : Package) (target : internal.Elem) (rv : types.Var)
    : Prop :=
  assignMatchType ext pkg_ (internal.Typ target) (Some (types.var_type rv)) = Ok tt.

Definition spreadBody (ext : Externals) (pkg_ : Package) (args : list internal.Elem)
    (rhsVals : list types.Var) (i : Z) : result ast.Expr :=
  l ← index args i;
  rv ← index rhsVals i;
  assignMatchType ext pkg_ (internal.Typ l) (Some (types.var_type rv));;
  Ok (internal.Val l).

(** What [SliceLit] leaves when it has settled on the slice type [t']. *)
Definition sliceLit_push (ext : Externals) (rest args : internal.Stack) (t' : types.type)
    (p : CodeBuilder) : result unit * CodeBuilder :=
  match toSliceType ext (pkg p) t' with
  | Ok te =>
      (Ok tt,
       set_stk (rest ++ [internal.NewElem
                           (ast.CompositeLit (Some te) (internal.Val <$> args))
                           (Some t')]) p)
  | Err e => (Err e, p)
  end.

(** The operand types are all one type. *)
Definition identical (ts : list types.type) : Prop :=
  ∀ t u, t ∈ ts → u ∈ ts → t = u.

(** ** A concrete instance

    One implementation of the collaborators and a few engine states, on
    which the operations can be run. *)

Module sample.

Definition kindName (k : types.BasicKind) : string :=
  match k with
  | types.Bool | types.UntypedBool => "bool"
  | types.Int | types.UntypedInt => "int"
  | types.Int32 | types.UntypedRune => "rune"
  | types.Float64 | types.UntypedFloat => "float64"
  | types.String | types.UntypedString => "string"
  | types.Complex128 | types.UntypedComplex => "complex128"
  | _ => "T"
  end.

Fixpoint toType (t : types.type) : ast.Expr :=
  match t with
  | types.Basic k => ast.Ident (kindName k)
  | types.Pointer e => ast.StarExpr (toType e)
  | types.Named obj _ _ => ast.Ident obj
  | types.Map k e => ast.MapType (toType k) (toType e)
  | types.Slice e => ast.ArrayType None (toType e)
  | types.Array e n => ast.ArrayType (Some (ast.BasicLit 5 (pretty n))) (toType e)
  | types.Interface _ => ast.InterfaceType []
  | types.Struct _ => ast.StructType []
  | types.Signature _ => ast.FuncType [] []
  | types.Tuple _ | types.refType _ => ast.Ident "_"
  end.

Definition toExpr (_ : Package) (v : any) : result internal.Elem :=
  match v with
  | AnyInt z =>
      Ok (internal.NewElem (ast.BasicLit 5 (pretty z))
            (Some (types.Typ types.UntypedInt)))
  | AnyString s =>
      Ok (internal.NewElem (ast.BasicLit 9 s) (Some (types.Typ types.UntypedString)))
  | AnyObject (types.ObjVar x) =>
      Ok (internal.NewElem (ast.Ident (types.var_name x)) (Some (types.var_type x)))
  | AnyObject (types.ObjFunc f) =>
      Ok (internal.NewElem (ast.Ident (types.func_name f)) (Some (types.Func_Type f)))
  | AnyObject (types.ObjTypeName n t) => Ok (internal.NewElem (ast.Ident n) (Some t))
  | AnyOther k => Err (External ("unsupported value " +:+ k))
  end.

Definition toObject (pkg_ : Package) (o : types.Object) : result internal.Elem :=
  toExpr pkg_ (AnyObject o).

Definition resultType (results : list types.Var) : option types.type :=
  match results with
  | [] => None
  | [r] => Some (types.var_type r)
  | _ => Some (types.Tuple results)
  end.

Definition AssignableTo (v : option types.type) (t : types.type) : bool :=
  match v with
  | Some v' => types.type_eqb v' t || types.type_eqb (types.Default v') t
  | None => false
  end.

Definition toFuncCall (_ : Package) (fn_ : internal.Elem) (args : list internal.Elem)
    (ellipsis : token.Pos) : result internal.Elem :=
  match internal.Typ fn_ with
  | Some (types.Signature sig) =>
      if (length args =? length (types.sig_params sig))%nat
         && forallb (λ '(a, x), AssignableTo (internal.Typ a) (types.var_type x))
              (zip args (types.sig_params sig))
      then Ok (internal.NewElem
                 (ast.CallExpr (internal.Val fn_) (internal.Val <$> args) ellipsis)
                 (resultType (types.sig_results sig)))
      else Err (External "arguments do not match")
  | _ => Err (External "not callable")
  end.

Definition assignMatchType (_ : Package) (varRef val : option types.type)
    : result unit :=
  match varRef with
  | None => Ok tt
  | Some (types.refType (Some t)) =>
      if AssignableTo val t then Ok tt else Err (External "not assignable")
  | Some (types.refType None) => Ok tt
  | Some _ => Err (External "not a variable reference")
  end.

(** Of untyped constant types, the one whose kind comes last in the order
    of go/types (bool, int, rune, float, complex, string, nil). *)
Definition defaultTyping (ts : list types.type) : result types.type :=
  match ts with
  | [] => Err MismatchedElementTypes
  | t :: rest =>
      Ok (foldl (λ a b,
                   match a, b with
                   | types.Basic ka, types.Basic kb =>
                       if types.BasicKind_code ka <? types.BasicKind_code kb
                       then b else a
                   | _, _ => a
                   end) t rest)
  end.

Definition ext : Externals :=
  NewExternals toExpr toObject toFuncCall
    (λ _ t, Ok (toType t)) (λ _ t, Ok (toType t)) (λ _ t, Ok (toType t))
    AssignableTo assignMatchType ast.Ident (ast.Ident "_") defaultTyping.

Definition tInt : types.type := types.Typ types.Int.
Definition tString : types.type := types.Typ types.String.

Definition var (name : string) (t : types.type) : types.Var := types.NewVar_ name t.

(** [func Gopo_Add(a, b int) int] and [func Gopo_Neg(a int) int] *)
Definition opAdd : types.Func :=
  types.NewFunc_ "Gopo_Add"
    (types.NewSignature_ None [var "a" tInt; var "b" tInt] [var "" tInt] false).
Definition opNeg : types.Func :=
  types.NewFunc_ "Gopo_Neg"
    (types.NewSignature_ None [var "a" tInt] [var "" tInt] false).

(** The store: the scope of the package at 0, the builtin scope at 1. *)
Definition heap0 : scope.store :=
  [ scope.NewScope_ None [] ∅ "package main";
    scope.NewScope_ None []
      (<["Gopo_Add" := types.ObjFunc opAdd]>
         (<["Gopo_Neg" := types.ObjFunc opNeg]> ∅)) "package builtin" ].

Definition pkg0 : Package := NewPackage "Gopo_" 1%nat 0%nat.

(** The engine after [init], with the given operands pushed. *)
Definition engine (s : internal.Stack) : CodeBuilder :=
  NewCodeBuilder s
    (NewFuncBodyCtx (NewCodeBlockCtx None (Some 0%nat) 0 []) None)
    pkg0 None heap0.

Definition operand (name : string) (t : types.type) : internal.Elem :=
  internal.NewElem (ast.Ident name) (Some t).

Definition target (name : string) (t : types.type) : internal.Elem :=
  internal.NewElem (ast.Ident name) (Some (types.refType (Some t))).

(** [func f(x int) (int, string)] *)
Definition f : types.Func :=
  types.NewFunc_ "f"
    (types.NewSignature_ None [var "x" tInt] [var "" tInt; var "" tString] false).

(** [type T struct { N string }] with a method [func (T) N(x int) int] *)
Definition T : types.type :=
  types.Named "T" (types.Struct [var "N" tString])
    [types.NewFunc_ "N"
       (types.NewSignature_ (Some (var "t" (types.Basic types.Invalid)))
          [var "x" tInt] [var "" tInt] false)].

(** [func h(a int, _ string, string) (r int, int)]: the third parameter and
    the second result have no name. *)
Definition h : types.Func :=
  types.NewFunc_ "h"
    (types.NewSignature_ None
       [var "a" tInt; var "_" tString; var "" tString]
       [var "r" tInt; var "" tInt] false).

(** An Oracle that cannot solve anything and says so twice. *)
Definition stuckOracle (_ _ : unit) (_ : list unit) (_ : list types.type)
    (_ : list types.Var) (_ : list unit) (_ : bool)
    (err : @infer.error_ unit unit) : list types.type * @infer.error_ unit unit :=
  ([],
   infer.NewError_ (infer.check err)
     (infer.desc err
        ++ [infer.NewErrorDesc tt "cannot infer T";
            infer.NewErrorDesc tt "in call to f"])
     (infer.code err) (infer.soft err)).

(** An operation ends well on the engine that holds the operands [s], at
    the depth its arities give. *)
Definition ends_well (o : operation) (s : internal.Stack) : Prop :=
  ∃ p', run ext o (engine s) = (Ok tt, p')
        ∧ internal.Len (stk p') = Z.of_nat (length s) - consumes o + produces o.

Definition x : internal.Elem := operand "x" tInt.
Definition y : internal.Elem := operand "y" tInt.

End sample.

(** ** More of the engine ([codebuild.go]) *)

Section MoreEngine.

Context (ext : Externals).

(** [checkMatchFuncResults], declared outside codebuild.go: nil, or the error
    that [Return] panics with. *)
Context (checkMatchFuncResults :
  Package → list internal.Elem → list types.Var → option error).

Definition startInitExpr (current_ : option codeBlock) : M (option codeBlock) :=
  old ← gets (λ p, codeBlock_ (current_ctx p));
  modify (λ p, let c := current_ctx p in
               set_codeBlockCtx
                 (NewCodeBlockCtx current_ (scope c) (base c) (stmts c)) p);;
  mret old.

Definition endInitExpr (old : option codeBlock) : M unit :=
  modify (λ p, let c := current_ctx p in
               set_codeBlockCtx (NewCodeBlockCtx old (scope c) (base c) (stmts c)) p).

Definition Return (n : Z) : M unit :=
  f ← gets (λ p, fn (current p));
  match f with
  | None => panic (RuntimeError "nil pointer dereference")
  | Some f =>
      sig ← lift (as_Signature (types.Func_Type f));
      let results := types.sig_results sig in
      args ← stk_GetArgs n;
      pkg_ ← gets pkg;
      match checkMatchFuncResults pkg_ args results with
      | Some err => panic err
      | None =>
          rets ← (if 0 <? n then
                    lift (make n);;
                    rets ← lift (for_range 0 (Z.to_nat n) (λ i,
                              a ← index args i; Ok (internal.Val a)));
                    stk_PopN n;;
                    mret rets
                  else mret []);
          modify (append_stmt (ast.ReturnStmt rets))
      end
  end.

(** The calls a client makes on the engine between the start and the end of
    a body. *)
Inductive engineCall :=
| DoOp (o : operation)
| DoReturn (n : Z)
| DoVal (v : any)
| DoVarRef (ref : VarRefArg)
| DoEndStmt
| DoDefer
| DoGo.

Definition runCall (c : engineCall) : M unit :=
  match c with
  | DoOp o => run ext o
  | DoReturn n => Return n
  | DoVal v => Val ext v
  | DoVarRef ref => VarRef ext ref
  | DoEndStmt => EndStmt
  | DoDefer => Defer
  | DoGo => Go
  end.

End MoreEngine.

(** ** More instances *)

Module more.

(** The results match when there are as many operands as declared
    results. *)
Definition checkMatchFuncResults (_ : Package) (args : list internal.Elem)
    (results : list types.Var) : option error :=
  if (length args =? length results)%nat then None
  else Some (External "wrong number of results").

(** The engine inside the body of [f], with the given operands pushed. *)
Definition inFunc (f : types.Func) (s : internal.Stack) : CodeBuilder :=
  NewCodeBuilder s
    (NewFuncBodyCtx (NewCodeBlockCtx None (Some 0%nat) 0 []) (Some f))
    sample.pkg0 None sample.heap0.

End more.

(** * Vocabulary of the further properties *)

(** [keeps m]: the operation only reads the engine; [atomic m]: when it
    fails, the engine is as it was; [succeeds m]: it never fails. *)
Definition keeps {A} (m : M A) : Prop := ∀ p r p', m p = (r, p') → p' = p.
Definition atomic {A} (m : M A) : Prop := ∀ p e p', m p = (Err e, p') → p' = p.
Definition succeeds {A} (m : M A) : Prop := ∀ p, ∃ a p', m p = (Ok a, p').

(** One round of the loop of [Assign] over as many sources as targets. *)
Definition pairBody (ext : Externals) (pkg_ : Package) (args : list internal.Elem)
    (lhs : Z) (i : Z) : result (ast.Expr * ast.Expr) :=
  l ← index args i;
  r ← index args (int_add lhs i);
  assignMatchType ext pkg_ (internal.Typ l) (internal.Typ r);;
  Ok (internal.Val l, internal.Val r).

(** The checks of the pairs of a target and a source, in their order; the
    first that fails decides. *)
Fixpoint matchPairs (ext : Externals) (pkg_ : Package) (ls rs : list internal.Elem)
    : result unit :=
  match ls, rs with
  | l :: ls', r :: rs' =>
      assignMatchType ext pkg_ (internal.Typ l) (internal.Typ r);;
      matchPairs ext pkg_ ls' rs'
  | _, _ => Ok tt
  end.

(** * Properties *)

(** ** Reasoning about operations *)

Lemma bind_Ok {A B} (m : M A) (f : A → M B) p b p' :
  (m ≫= f) p = (Ok b, p') → ∃ a p1, m p = (Ok a, p1) ∧ f a p1 = (Ok b, p').
Proof.
  unfold mbind, M_bind. destruct (m p) as [[a|e] p1]; [eauto|discriminate].
Qed.

Lemma lift_Ok {A} (r : result A) p a p' :
  lift r p = (Ok a, p') → r = Ok a ∧ p' = p.
Proof. unfold lift. by intros [= -> ->]. Qed.

Lemma gets_Ok {A} (f : CodeBuilder → A) p a p' :
  gets f p = (Ok a, p') → a = f p ∧ p' = p.
Proof. unfold gets. by intros [= <- <-]. Qed.

Lemma modify_Ok (f : CodeBuilder → CodeBuilder) p u p' :
  modify f p = (Ok u, p') → p' = f p.
Proof. unfold modify. by intros [= <- <-]. Qed.

Lemma ret_Ok {A} (x : A) p a p' :
  (mret x : M A) p = (Ok a, p') → a = x ∧ p' = p.
Proof. unfold mret, M_ret. by intros [= <- <-]. Qed.

Lemma panic_Ok {A} (e : error) p (a : A) p' : panic e p = (Ok a, p') → False.
Proof. unfold panic. discriminate. Qed.

Lemma check_count_Ok n s u :
  internal.check_count n s = Ok u → 0 <= n <= internal.Len s.
Proof.
  unfold internal.check_count.
  destruct (Z.ltb_spec n 0); [discriminate|].
  destruct (Z.ltb_spec (internal.Len s) n); [discriminate|]. lia.
Qed.

Lemma check_count_valid n s :
  0 <= n <= internal.Len s → internal.check_count n s = Ok tt.
Proof.
  intros ?. unfold internal.check_count.
  destruct (Z.ltb_spec n 0); [lia|].
  destruct (Z.ltb_spec (internal.Len s) n); [lia|]. done.
Qed.

Lemma GetArgs_Ok n s args :
  internal.GetArgs n s = Ok args →
  0 <= n <= internal.Len s ∧ args = drop (length s - Z.to_nat n) s.
Proof.
  unfold internal.GetArgs. destruct (internal.check_count n s) eqn:E; [|discriminate].
  simpl. intros [= <-]. eauto using check_count_Ok.
Qed.

Lemma PopN_Ok n s s' :
  internal.PopN n s = Ok s' →
  0 <= n <= internal.Len s ∧ s' = take (length s - Z.to_nat n) s.
Proof.
  unfold internal.PopN. destruct (internal.check_count n s) eqn:E; [|discriminate].
  simpl. intros [= <-]. eauto using check_count_Ok.
Qed.

Lemma PopN_Len n s s' :
  internal.PopN n s = Ok s' → internal.Len s' = internal.Len s - n.
Proof.
  intros [Hn ->]%PopN_Ok. unfold internal.Len in *.
  rewrite length_take. lia.
Qed.

Lemma Ret_Len n e s s' :
  internal.Ret n e s = Ok s' → internal.Len s' = internal.Len s - n + 1.
Proof.
  unfold internal.Ret. destruct (internal.PopN n s) as [s1|] eqn:E; [|discriminate].
  simpl. intros [= <-]. apply PopN_Len in E.
  unfold internal.Push, internal.Len in *. rewrite length_app. simpl. lia.
Qed.

Lemma Push_Len e s : internal.Len (internal.Push e s) = internal.Len s + 1.
Proof. unfold internal.Push, internal.Len. rewrite length_app. simpl. lia. Qed.

Lemma stk_GetArgs_Ok n p args p' :
  stk_GetArgs n p = (Ok args, p') →
  p' = p ∧ 0 <= n <= internal.Len (stk p)
  ∧ args = drop (length (stk p) - Z.to_nat n) (stk p).
Proof. unfold stk_GetArgs. intros [= H <-]. apply GetArgs_Ok in H. tauto. Qed.

Lemma stk_Get_Ok idx p e p' :
  stk_Get idx p = (Ok e, p') → p' = p ∧ internal.Get idx (stk p) = Ok e.
Proof. unfold stk_Get. by intros [= -> <-]. Qed.

Lemma stk_update_Ok f p u p' :
  stk_update f p = (Ok u, p') → ∃ s, f (stk p) = Ok s ∧ p' = set_stk s p.
Proof.
  unfold stk_update. destruct (f (stk p)) as [s|]; [|discriminate].
  intros [= <- <-]. eauto.
Qed.

Lemma stk_Ret_Len n e p u p' :
  stk_Ret n e p = (Ok u, p') →
  internal.Len (stk p') = internal.Len (stk p) - n + 1.
Proof.
  unfold stk_Ret. intros (s & H & ->)%stk_update_Ok. simpl. by apply Ret_Len in H.
Qed.

Lemma stk_PopN_Len n p u p' :
  stk_PopN n p = (Ok u, p') →
  internal.Len (stk p') = internal.Len (stk p) - n.
Proof.
  unfold stk_PopN. intros (s & H & ->)%stk_update_Ok. simpl. by apply PopN_Len.
Qed.

Lemma stk_Push_Len e p u p' :
  stk_Push e p = (Ok u, p') →
  internal.Len (stk p') = internal.Len (stk p) + 1.
Proof. unfold stk_Push. intros ->%modify_Ok. simpl. apply Push_Len. Qed.

(** One step of an operation that has ended well: the first action of a
    sequence is split off, and an action that only reads the state is
    replaced by what it read. *)
Ltac mstep :=
  match goal with
  | H : (_ ≫= _) _ = (Ok _, _) |- _ =>
      apply bind_Ok in H; destruct H as (? & ? & ? & H)
  | H : lift _ _ = (Ok _, _) |- _ => apply lift_Ok in H; destruct H as [H ->]
  | H : gets _ _ = (Ok _, _) |- _ =>
      apply gets_Ok in H; destruct H as [H ->]; try subst
  | H : mret _ _ = (Ok _, _) |- _ =>
      apply ret_Ok in H; destruct H as [H ->]; try (injection H as H); try subst
  | H : panic _ _ = (Ok _, _) |- _ => by apply panic_Ok in H
  | H : stk_GetArgs _ _ = (Ok _, _) |- _ =>
      apply stk_GetArgs_Ok in H; destruct H as (-> & ? & ->)
  | H : stk_Get _ _ = (Ok _, _) |- _ => apply stk_Get_Ok in H; destruct H as [-> H]
  | H : (let '(_, _) := ?x in _) _ = (Ok _, _) |- _ => destruct x
  | H : (if ?b then _ else _) _ = (Ok _, _) |- _ => destruct b eqn:?
  | H : (match ?x with _ => _ end) _ = (Ok _, _) |- _ => destruct x eqn:?
  end.

Ltac int_lia :=
  unfold is_int, int_min, int_max in *;
  change (2 ^ 64) with 18446744073709551616 in *;
  change (2 ^ 63) with 9223372036854775808 in *;
  lia.

Lemma int_wrap_id z : is_int z → int_wrap z = z.
Proof.
  unfold is_int, int_min, int_max, int_wrap. intros ?.
  rewrite Z.mod_small; lia.
Qed.

Lemma int_wrap_range z : is_int (int_wrap z).
Proof.
  unfold is_int, int_min, int_max, int_wrap.
  pose proof (Z.mod_pos_bound (z + 2 ^ 63) (2 ^ 64)). lia.
Qed.

Lemma int_wrap_cases z :
  - 2 ^ 64 <= z < 2 ^ 64 →
  (is_int z ∧ int_wrap z = z)
  ∨ (int_max < z ∧ int_wrap z = z - 2 ^ 64)
  ∨ (z < int_min ∧ int_wrap z = z + 2 ^ 64).
Proof.
  unfold int_wrap, is_int, int_min, int_max. intros ?.
  destruct (Z_lt_ge_dec (z + 2 ^ 63) 0).
  - right; right. rewrite <- (Z.mod_add _ 1) by lia. rewrite Z.mod_small; lia.
  - destruct (Z_lt_ge_dec (z + 2 ^ 63) (2 ^ 64)).
    + left. rewrite Z.mod_small; lia.
    + right; left. rewrite <- (Z.mod_add _ (-1)) by lia. rewrite Z.mod_small; lia.
Qed.

Lemma stk_Ret_Ok n e p u p' :
  stk_Ret n e p = (Ok u, p') →
  0 <= n <= internal.Len (stk p)
  ∧ p' = set_stk (take (length (stk p) - Z.to_nat n) (stk p) ++ [e]) p.
Proof.
  unfold stk_Ret. intros (s & H & ->)%stk_update_Ok.
  unfold internal.Ret in H.
  destruct (internal.PopN n (stk p)) as [s1|] eqn:E; [|discriminate].
  simpl in H. injection H as <-. apply PopN_Ok in E as [? ->]. done.
Qed.

Lemma stk_PopN_Ok n p u p' :
  stk_PopN n p = (Ok u, p') →
  0 <= n <= internal.Len (stk p)
  ∧ p' = set_stk (take (length (stk p) - Z.to_nat n) (stk p)) p.
Proof.
  unfold stk_PopN. intros (s & H & ->)%stk_update_Ok.
  apply PopN_Ok in H as [? ->]. done.
Qed.

Section Arity.

Context (ext : Externals).

Lemma Call_arity n ellipsis p u p' :
  is_int n →
  Call ext n ellipsis p = (Ok u, p') →
  internal.Len (stk p') = internal.Len (stk p) - (n + 1) + 1.
Proof.
  intros Hn H. unfold Call in H. repeat mstep.
  pose proof (stk_Ret_Len _ _ _ _ _ H) as HL.
  apply stk_Ret_Ok in H as [Hr _].
  rewrite HL. unfold int_add in *.
  destruct (int_wrap_cases (n + 1)) as [[_ E]|[[? E]|[? E]]]; int_lia.
Qed.

Lemma operatorCall_arity arity opname op p u p' :
  operatorCall ext arity opname op p = (Ok u, p') →
  internal.Len (stk p') = internal.Len (stk p) - arity + 1.
Proof.
  intros H. unfold operatorCall in H. repeat mstep.
  by apply stk_Ret_Len in H.
Qed.

Lemma Assign_arity lhs v p u p' :
  is_int lhs → is_int (Assign_rhs lhs v) →
  Assign ext lhs v p = (Ok u, p') →
  internal.Len (stk p') = internal.Len (stk p) - (lhs + Assign_rhs lhs v).
Proof.
  intros Hl Hr H. unfold Assign in H.
  apply bind_Ok in H as (args & p1 & Hargs & H).
  apply stk_GetArgs_Ok in Hargs as (-> & Hw & ->).
  apply bind_Ok in H as (? & p1 & [Hmk1 ->]%lift_Ok & H).
  apply bind_Ok in H as (? & p1 & [Hmk2 ->]%lift_Ok & H).
  apply bind_Ok in H as (? & p1 & [-> ->]%gets_Ok & H).
  apply bind_Ok in H as ([Lhs Rhs] & p1 & Hloop & H).
  assert (p1 = p) as ->.
  { clear H. repeat mstep; done. }
  apply bind_Ok in H as (? & p1 & ->%modify_Ok & H).
  apply stk_PopN_Len in H. rewrite H. simpl.
  unfold make in *.
  destruct (Z.ltb_spec lhs 0); [discriminate|].
  destruct (Z.ltb_spec (Assign_rhs lhs v) 0); [discriminate|].
  unfold int_add in *.
  destruct (int_wrap_cases (lhs + Assign_rhs lhs v)) as [[_ E]|[[? E]|[? E]]];
    int_lia.
Qed.

Lemma MapLit_arity t arity p u p' :
  MapLit ext t arity p = (Ok u, p') →
  internal.Len (stk p') = internal.Len (stk p) - arity + 1.
Proof.
  intros H. unfold MapLit in H.
  apply bind_Ok in H as (? & p1 & [-> ->]%gets_Ok & H).
  destruct (Z.eqb_spec arity 0) as [->|_].
  - repeat mstep; apply stk_Push_Len in H; lia.
  - destruct (negb _); [by apply panic_Ok in H|].
    apply bind_Ok in H as (args & p1 & Hargs & H).
    apply stk_GetArgs_Ok in Hargs as (-> & Hw & ->).
    apply bind_Ok in H as ([[key val] t'] & p1 & Hty & H).
    assert (p1 = p) as ->.
    { clear H. destruct t as [[k e]|]; repeat mstep; done. }
    repeat mstep; by apply stk_Ret_Len in H.
Qed.

Lemma SliceLit_arity t arity keyVal p u p' :
  SliceLit ext t arity keyVal p = (Ok u, p') →
  internal.Len (stk p') = internal.Len (stk p) - arity + 1.
Proof.
  intros H. unfold SliceLit in H.
  destruct (flag_set keyVal); [by apply panic_Ok in H|].
  apply bind_Ok in H as (? & p1 & [-> ->]%gets_Ok & H).
  destruct (Z.eqb_spec arity 0) as [->|_].
  - repeat mstep; apply stk_Push_Len in H; lia.
  - apply bind_Ok in H as (args & p1 & Hargs & H).
    apply stk_GetArgs_Ok in Hargs as (-> & Hw & ->).
    apply bind_Ok in H as ([val t'] & p1 & Hty & H).
    assert (p1 = p) as ->.
    { clear H. destruct t; repeat mstep; done. }
    repeat mstep; by apply stk_Ret_Len in H.
Qed.

Lemma ArrayLit_arity t arity keyVal p u p' :
  ArrayLit ext t arity keyVal p = (Ok u, p') →
  internal.Len (stk p') = internal.Len (stk p) - arity + 1.
Proof.
  intros H. unfold ArrayLit in H.
  destruct (flag_set keyVal); [by apply panic_Ok in H|].
  destruct t as [[val n]|]; [|by apply panic_Ok in H].
  destruct (_ && _); [by apply panic_Ok in H|].
  repeat mstep; by apply stk_Ret_Len in H.
Qed.

Lemma fieldVal_arity x struc name p u p' :
  fieldVal ext x struc name p = (Ok u, p') →
  internal.Len (stk p') = internal.Len (stk p) - 1 + 1.
Proof.
  unfold fieldVal. destruct (structFieldType struc name); intros H.
  - by apply stk_Ret_Len in H.
  - by apply panic_Ok in H.
Qed.

Lemma MemberVal_arity name p u p' :
  MemberVal ext name p = (Ok u, p') →
  internal.Len (stk p') = internal.Len (stk p) - 1 + 1.
Proof.
  intros H. unfold MemberVal in H.
  apply bind_Ok in H as (arg & p1 & [-> Harg]%stk_Get_Ok & H).
  destruct (indirect (internal.Typ arg)) as [[]|];
    try (by apply panic_Ok in H); try (by apply fieldVal_arity in H).
  destruct (findMethod methods name).
  - repeat mstep; by apply stk_Ret_Len in H.
  - destruct underlying;
      try (by apply panic_Ok in H); by apply fieldVal_arity in H.
Qed.

End Arity.

(** ** C1: the stack arity law *)

(** C1. Every construction operation that ends well leaves the operand
    stack at its depth before, minus what the operation consumes, plus what
    it produces: [Call n] consumes [n] arguments and the callee and produces
    one operand; [BinaryOp] consumes 2 and produces 1; [UnaryOp] consumes 1
    and produces 1; [Assign lhs rhs] consumes [lhs + rhs] and produces
    nothing; [MapLit], [SliceLit] and [ArrayLit] of arity [n] consume [n]
    and produce 1; [MemberVal] consumes 1 and produces 1. *)
Theorem stack_arity_law (ext : Externals) (o : operation) (p p' : CodeBuilder) :
  int_args o →
  run ext o p = (Ok tt, p') →
  internal.Len (stk p') = internal.Len (stk p) - consumes o + produces o.
Proof.
  intros Hint H. destruct o; simpl in *.
  - by apply Call_arity in H.
  - unfold BinaryOp in H. apply operatorCall_arity in H. exact H.
  - unfold UnaryOp in H. apply operatorCall_arity in H. exact H.
  - destruct Hint. apply Assign_arity in H; [lia|done..].
  - by apply MapLit_arity in H.
  - by apply SliceLit_arity in H.
  - by apply ArrayLit_arity in H.
  - by apply MemberVal_arity in H.
Qed.

Lemma stack_arity_law_witness :
  sample.ends_well (OpCall 1 [])
    [sample.operand "g" (types.Func_Type sample.f); sample.x]
  ∧ sample.ends_well (OpBinaryOp token.ADD) [sample.x; sample.y]
  ∧ sample.ends_well (OpUnaryOp token.SUB) [sample.x]
  ∧ sample.ends_well (OpAssign 1 []) [sample.target "a" sample.tInt; sample.x]
  ∧ sample.ends_well (OpMapLit None 2) [sample.operand "k" sample.tString; sample.x]
  ∧ sample.ends_well (OpSliceLit None 2 []) [sample.x; sample.y]
  ∧ sample.ends_well (OpArrayLit (Some (sample.tInt, 2)) 2 []) [sample.x; sample.y]
  ∧ sample.ends_well (OpMemberVal "N") [sample.operand "v" sample.T].
Proof.
  assert (∀ o s p', int_args o →
            run sample.ext o (sample.engine s) = (Ok tt, p') →
            sample.ends_well o s) as H.
  { intros o s p' Hint Hrun. exists p'. split; [exact Hrun|].
    exact (stack_arity_law sample.ext o (sample.engine s) p' Hint Hrun). }
  split_and!; (eapply H; [simpl; int_lia | vm_compute; reflexivity]).
Defined.

(** ** C2: the block truncation law *)

Lemma inside_block_push p0 q e :
  inside_block p0 q → inside_block p0 (set_stk (internal.Push e (stk q)) q).
Proof.
  intros [[extra Hs] Hb]. split; [|done].
  exists (extra ++ [e]). simpl. unfold internal.Push. by rewrite Hs, <- app_assoc.
Qed.

Lemma stk_Push_run e q : stk_Push e q = (Ok tt, set_stk (internal.Push e (stk q)) q).
Proof. done. Qed.

Lemma Val_inside ext v p0 q r q' :
  Val ext v q = (r, q') → inside_block p0 q → inside_block p0 q'.
Proof.
  unfold Val, mbind, M_bind, gets, lift.
  destruct (toExpr ext (pkg q) v) as [e|err]; simpl.
  - intros [= <- <-]. apply inside_block_push.
  - by intros [= <- <-].
Qed.

Lemma VarRef_inside ext ref p0 q r q' :
  VarRef ext ref q = (r, q') → inside_block p0 q → inside_block p0 q'.
Proof.
  destruct ref; simpl; try (intros [= <- <-]; apply inside_block_push).
  unfold panic. by intros [= <- <-].
Qed.

Lemma check_count_app (s l : internal.Stack) :
  internal.check_count (Z.of_nat (length l)) (s ++ l) = Ok tt.
Proof.
  apply check_count_valid. unfold internal.Len. rewrite length_app. lia.
Qed.

Lemma GetArgs_app (s l : internal.Stack) :
  internal.GetArgs (Z.of_nat (length l)) (s ++ l) = Ok l.
Proof.
  unfold internal.GetArgs. rewrite check_count_app. simpl.
  rewrite Nat2Z.id, length_app.
  replace (length s + length l - length l)%nat with (length s) by lia.
  by rewrite drop_app_length.
Qed.

Lemma PopN_app (s l : internal.Stack) :
  internal.PopN (Z.of_nat (length l)) (s ++ l) = Ok s.
Proof.
  unfold internal.PopN. rewrite check_count_app. simpl.
  rewrite Nat2Z.id, length_app.
  replace (length s + length l - length l)%nat with (length s) by lia.
  by rewrite take_app_length.
Qed.

Lemma Ret_app (s l : internal.Stack) (e : internal.Elem) :
  internal.Ret (Z.of_nat (length l)) e (s ++ l) = Ok (s ++ [e]).
Proof. unfold internal.Ret. by rewrite PopN_app. Qed.

Lemma Get_last (s : internal.Stack) (e : internal.Elem) :
  internal.Get (-1) (s ++ [e]) = Ok e.
Proof.
  unfold internal.Get, internal.Len. rewrite length_app.
  change (length [e]) with 1%nat.
  destruct (Z.ltb_spec (Z.of_nat (length s + 1) + -1) 0); [lia|].
  destruct (Z.leb_spec (Z.of_nat (length s + 1)) (Z.of_nat (length s + 1) + -1));
    [lia|].
  replace (Z.to_nat (Z.of_nat (length s + 1) + -1)) with (length s + 0)%nat by lia.
  cbn [orb]. by rewrite lookup_app_r, Nat.add_0_r, Nat.sub_diag by lia.
Qed.

Lemma Pop_app_one (s : internal.Stack) (e : internal.Elem) :
  internal.Pop (s ++ [e]) = Ok (e, s).
Proof.
  unfold internal.Pop. rewrite Get_last. cbn [mbind result_bind].
  pose proof (PopN_app s [e]) as H. change (Z.of_nat (length [e])) with 1 in H.
  by rewrite H.
Qed.

Lemma EndStmt_inside p0 q r q' :
  EndStmt q = (r, q') → inside_block p0 q → inside_block p0 q'.
Proof.
  intros H [[extra Hs] [Hb Hf]].
  assert (internal.Len (stk q) - base (current_ctx q) = Z.of_nat (length extra))
    as Hn.
  { rewrite Hb, Hs. unfold internal.Len. rewrite length_app. lia. }
  unfold EndStmt, mbind, M_bind, stk_Len, gets, panic in H.
  cbn beta iota zeta in H. rewrite Hn in H.
  destruct extra as [|e [|e' extra]]; cbn [length] in H.
  - unfold mret, M_ret in H. injection H as <- <-. split; eauto.
  - change (0 <? Z.of_nat 1) with true in H.
    change (negb (Z.of_nat 1 =? 1)) with false in H. cbn beta iota in H.
    unfold stk_Pop in H. rewrite Hs, Pop_app_one in H.
    unfold modify in H. injection H as <- <-.
    split; [|done]. exists []. simpl. by rewrite app_nil_r.
  - destruct (Z.ltb_spec 0 (Z.of_nat (S (S (length extra))))); [|lia].
    destruct (Z.eqb_spec (Z.of_nat (S (S (length extra)))) 1); [lia|].
    cbn beta iota in H. injection H as <- <-. split; eauto.
Qed.

Lemma runSteps_inside ext body p0 q r q' :
  runSteps ext body q = (r, q') → inside_block p0 q → inside_block p0 q'.
Proof.
  revert q. induction body as [|s body IH]; intros q H Hq; simpl in H.
  - unfold mret, M_ret in H. by injection H as <- <-.
  - unfold mbind, M_bind in H.
    destruct (runStep ext s q) as [[[]|err] q1] eqn:Hs.
    + eapply IH; [done|].
      destruct s; simpl in Hs;
        eauto using Val_inside, VarRef_inside, EndStmt_inside.
    + injection H as <- <-.
      destruct s; simpl in Hs;
        eauto using Val_inside, VarRef_inside, EndStmt_inside.
Qed.

Lemma endBlockStmt_inside old p0 q :
  inside_block p0 q →
  endBlockStmt old q
  = (Ok (stmts (current_ctx q)), set_codeBlockCtx old (set_stk (stk p0) q)).
Proof.
  intros [[extra Hs] [Hb _]].
  unfold endBlockStmt, mbind, M_bind, gets, stk_SetLen, stk_update, modify,
    mret, M_ret, internal.SetLen.
  rewrite Hb, Hs. unfold internal.Len. rewrite length_app.
  destruct (Z.ltb_spec (Z.of_nat (length (stk p0))) 0); [lia|].
  destruct (Z.ltb_spec (Z.of_nat (length (stk p0) + length extra))
              (Z.of_nat (length (stk p0)))); [lia|]. simpl.
  by rewrite Nat2Z.id, take_app_length.
Qed.

(** C2. Whatever is pushed between entering a block and leaving it, and
    however many operands are left over (also when the body ends in a
    panic), leaving the block puts the operand stack back to what it was at
    entry, so to the depth recorded at entry; it restores the block context
    saved at entry and returns the statements of the block that is left,
    which started empty. *)
Theorem block_truncation_law (ext : Externals) (current_ : option codeBlock)
    (comment : string) (body : list blockStep) (p : CodeBuilder) :
  ∃ p1 r p2 p3,
    startBlockStmt current_ comment p = (Ok (current_ctx p), p1)
    ∧ base (current_ctx p1) = internal.Len (stk p)
    ∧ stmts (current_ctx p1) = []
    ∧ runSteps ext body p1 = (r, p2)
    ∧ endBlockStmt (current_ctx p) p2 = (Ok (stmts (current_ctx p2)), p3)
    ∧ stk p3 = stk p
    ∧ internal.Len (stk p3) = internal.Len (stk p)
    ∧ current_ctx p3 = current_ctx p
    ∧ fn (current p3) = fn (current p).
Proof.
  destruct (startBlockStmt current_ comment p) as [r1 p1] eqn:H1.
  unfold startBlockStmt in H1.
  destruct (scope.NewScope _ _ _) as [sc h] eqn:Hsc. injection H1 as <- <-.
  set (p1 := set_codeBlockCtx _ _).
  assert (inside_block p p1) as Hin.
  { split; [exists []; simpl; by rewrite app_nil_r | done]. }
  destruct (runSteps ext body p1) as [r p2] eqn:H2.
  pose proof (runSteps_inside _ _ _ _ _ _ H2 Hin) as Hin2.
  exists p1, r, p2, (set_codeBlockCtx (current_ctx p) (set_stk (stk p) p2)).
  split_and!; try done.
  - by apply endBlockStmt_inside.
  - simpl. apply Hin2.
Qed.

Lemma block_truncation_law_witness :
  let p := sample.engine [sample.x] in
  let body := [StepVal (AnyInt 1); StepEndStmt; StepVal (AnyInt 2);
               StepVal (AnyInt 3); StepEndStmt; StepVal (AnyInt 4)] in
  ∃ p1 p2 p3,
    startBlockStmt None "block" p = (Ok (current_ctx p), p1)
    ∧ runSteps sample.ext body p1 = (Err EndStmt_panic, p2)
    ∧ internal.Len (stk p2) = 3
    ∧ endBlockStmt (current_ctx p) p2
      = (Ok [ast.ExprStmt (ast.BasicLit 5 "1")], p3)
    ∧ stk p3 = [sample.x]
    ∧ current_ctx p3 = current_ctx p.
Proof.
  intros p body.
  destruct (block_truncation_law sample.ext None "block" body p)
    as (p1 & r & p2 & p3 & H1 & _ & _ & H2 & H3 & Hstk & _ & Hctx & _).
  exists p1, p2, p3.
  assert (p1 = (startBlockStmt None "block" p).2) as Hp1 by (by rewrite H1).
  assert ((r, p2) = runSteps sample.ext body (startBlockStmt None "block" p).2)
    as Hp2 by (by rewrite <- Hp1, H2).
  vm_compute in Hp2. injection Hp2 as -> ->.
  split_and!; [exact H1 | exact H2 | reflexivity | exact H3 | exact Hstk | exact Hctx].
Defined.

(** ** C10: ending a statement *)

(** C10. [EndStmt] looks at the number of operands above the base of the
    current block: with none it changes nothing (neither the stack nor the
    statements); with exactly one it pops that operand and appends one
    expression statement that wraps its value; with two or more it fails
    and leaves the stack and the statements as they were. *)
Theorem EndStmt_cases (p : CodeBuilder) :
  0 <= base (current_ctx p) →
  let n := internal.Len (stk p) - base (current_ctx p) in
  (n <= 0 → EndStmt p = (Ok tt, p))
  ∧ (n = 1 → ∃ s e, stk p = s ++ [e]
               ∧ EndStmt p
                 = (Ok tt, append_stmt (ast.ExprStmt (internal.Val e)) (set_stk s p)))
  ∧ (2 <= n → EndStmt p = (Err EndStmt_panic, p)).
Proof.
  intros Hbase n.
  unfold EndStmt, mbind, M_bind, stk_Len, gets, panic. cbn beta iota zeta.
  fold n. split_and!; intros Hn.
  - destruct (Z.ltb_spec 0 n); [lia|]. done.
  - rewrite Hn. cbn beta iota.
    assert (stk p ≠ []) as Hne.
    { intros Hs. unfold n, internal.Len in Hn. rewrite Hs in Hn. simpl in Hn. lia. }
    destruct (exists_last Hne) as (s0 & e0 & Hs).
    exists s0, e0. split; [done|].
    change (0 <? 1) with true. change (negb (1 =? 1)) with false.
    cbn beta iota. unfold stk_Pop. by rewrite Hs, Pop_app_one.
  - destruct (Z.ltb_spec 0 n); [|lia].
    destruct (Z.eqb_spec n 1); [lia|]. done.
Qed.

Lemma EndStmt_cases_witness :
  let p := sample.engine [sample.operand "x" sample.tInt] in
  EndStmt p
  = (Ok tt, append_stmt (ast.ExprStmt (ast.Ident "x")) (sample.engine [])).
Proof.
  intros p.
  destruct (EndStmt_cases p) as (_ & H1 & _); [simpl; lia|].
  destruct H1 as (s & e & Hs & ->); [reflexivity|].
  change (stk p) with ([] ++ [sample.operand "x" sample.tInt]) in Hs.
  apply app_inj_tail in Hs as [<- <-]. reflexivity.
Defined.

(** ** C8: Defer and Go *)

(** C8. [Defer] and [Go] fail at once in every engine state: each ends in
    its panic and leaves the engine (the operand stack, the statements of
    the current block and everything else) exactly as it was. *)
Theorem Defer_Go_always_fail (p : CodeBuilder) :
  Defer p = (Err (Panic "CodeBuilder.Defer"), p)
  ∧ Go p = (Err (Panic "CodeBuilder.Go"), p).
Proof. split; reflexivity. Qed.

(** ** C6: the empty map literal *)

(** At arity 0 and without a type, the operand pushed by [MapLit] is not
    typed as a map from the empty interface to the empty interface. *)
Lemma MapLit_default_not_interface_keyed :
  ∃ p' e,
    MapLit sample.ext None 0 (sample.engine []) = (Ok tt, p')
    ∧ stk p' = [e]
    ∧ internal.Typ e ≠ Some (types.NewMap TyEmptyInterface TyEmptyInterface).
Proof.
  eexists _, _. split_and!; [vm_compute; reflexivity | reflexivity | discriminate].
Qed.

(** C6 (amended). [MapLit] with arity 0 and no type pushes one composite
    literal without elements whose type is the map from [string] to the
    empty interface, and consumes no operand; it fails only if the type
    expression of that map type cannot be built. *)
Theorem MapLit_default_type (ext : Externals) (p : CodeBuilder) :
  match toMapType ext (pkg p) defaultMapType with
  | Ok te =>
      MapLit ext None 0 p
      = (Ok tt,
         set_stk (stk p ++ [internal.NewElem (ast.CompositeLit (Some te) [])
                              (Some defaultMapType)]) p)
  | Err e => MapLit ext None 0 p = (Err e, p)
  end.
Proof.
  unfold MapLit, mbind, M_bind, gets, lift. cbn beta iota zeta.
  change (0 =? 0) with true. cbn beta iota. fold defaultMapType.
  by destruct (toMapType ext (pkg p) defaultMapType).
Qed.

(** ** C7: the failure of type-argument inference *)

Lemma Sprintf_s (s : string) : infer.Sprintf "%s" [s] = s.
Proof.
  cbn [infer.Sprintf]. induction s as [|c s IH]; [done|].
  change (String c (s +:+ "") = String c s). by rewrite IH.
Qed.

Section InferProperties.

Context {Checker positioner TypeParam operand : Type}.
Context (checker_infer123 :
  Checker → positioner → list TypeParam → list types.type → list types.Var
  → list operand → bool → @infer.error_ Checker positioner
  → list types.type * @infer.error_ Checker positioner).

(** C7. [checker_infer] asks the Oracle with an empty diagnostic record
    whose code is [CannotInferTypeArgs]. When the Oracle leaves
    diagnostics, the error returned carries exactly the message of the first
    one; when it leaves none, no error is returned; in both cases the type
    arguments it solved are returned as they are. *)
Theorem checker_infer_first_diagnostic (check_ : Checker) (posn_ : positioner)
    (tparams : list TypeParam) (targs : list types.type)
    (params : list types.Var) (args : list operand) :
  let request := infer.NewError_ check_ [] infer.CannotInferTypeArgs false in
  let answer :=
    checker_infer123 check_ posn_ tparams targs params args true request in
  let out := infer.checker_infer checker_infer123 check_ posn_ tparams targs
               params args in
  out.1 = answer.1
  ∧ match infer.desc answer.2 with
    | d :: _ => ∃ err, out.2 = Some err ∧ infer.Error err = infer.msg d
    | [] => out.2 = None
    end.
Proof.
  intros request answer out. unfold out, infer.checker_infer.
  fold request. fold answer. destruct answer as [result _err]. simpl.
  split; [done|]. destruct (infer.desc _err) as [|d ds]; simpl; [done|].
  eexists. split; [done|]. simpl. apply Sprintf_s.
Qed.

End InferProperties.

Lemma checker_infer_first_diagnostic_witness :
  ∃ err,
    infer.checker_infer sample.stuckOracle tt tt [] [] [] []
    = ([], Some err)
    ∧ infer.Error err = "cannot infer T".
Proof.
  destruct (checker_infer_first_diagnostic sample.stuckOracle tt tt [] [] [] [])
    as [_ (err & Herr & Hmsg)].
  exists err. split; [|exact Hmsg].
  destruct (infer.checker_infer _ _ _ _ _ _ _) as [res e] eqn:E.
  simpl in Herr. subst e. f_equal.
  change res with (res, Some err).1. rewrite <- E. reflexivity.
Defined.

(** ** C3: methods before fields *)

Lemma findMethod_Some methods name :
  (∃ m, m ∈ methods ∧ types.func_name m = name) →
  ∃ method, findMethod methods name = Some method
            ∧ method ∈ methods ∧ types.func_name method = name.
Proof.
  intros (m & Hm & Hname). unfold findMethod.
  destruct (List.find (λ method, String.eqb (types.func_name method) name) methods)
    as [method|] eqn:Hfind.
  - apply find_some in Hfind as [Hin Heq].
    exists method. split_and!; [done| by apply list_elem_of_In | by apply String.eqb_eq].
  - apply list_elem_of_In in Hm.
    apply (find_none _ _ Hfind) in Hm. simpl in Hm.
    apply String.eqb_neq in Hm. done.
Qed.

(** C3. When the type of the receiver on top of the stack is, after at
    most one pointer has been stripped, a named type with a method called
    [name], [MemberVal name] selects that method: the receiver is replaced
    by the selector expression typed as the signature of the (first) method
    of that name without its receiver. The underlying type is not looked
    at, so a struct field of the same name never wins over the method. *)
Theorem MemberVal_method_first (ext : Externals) (name : string)
    (s : internal.Stack) (arg : internal.Elem)
    (obj : string) (underlying : types.type) (methods : list types.Func)
    (p : CodeBuilder) :
  stk p = s ++ [arg] →
  indirect (internal.Typ arg) = Some (types.Named obj underlying methods) →
  (∃ m, m ∈ methods ∧ types.func_name m = name) →
  ∃ method,
    findMethod methods name = Some method
    ∧ method ∈ methods
    ∧ types.func_name method = name
    ∧ MemberVal ext name p
      = (Ok tt,
         set_stk (s ++ [internal.NewElem
                          (ast.SelectorExpr (internal.Val arg) (ident ext name))
                          (Some (withoutReceiver method))]) p).
Proof.
  intros Hs Hty Hm.
  destruct (findMethod_Some _ _ Hm) as (method & Hfind & Hin & Hname).
  exists method. split_and!; try done.
  unfold MemberVal, mbind, M_bind, stk_Get. rewrite Hs, Get_last.
  cbn beta iota. rewrite Hty, Hfind. unfold lift, stk_Ret, stk_update.
  cbn beta iota. rewrite Hs.
  pose proof (Ret_app s [arg]) as HR. change (Z.of_nat (length [arg])) with 1 in HR.
  unfold types.Func_Type. cbn [methodTypeOf]. by rewrite HR.
Qed.

Lemma MemberVal_method_first_witness :
  let recv := sample.operand "v" (types.Pointer sample.T) in
  structFieldType [sample.var "N" sample.tString] "N" = Some sample.tString
  ∧ MemberVal sample.ext "N" (sample.engine [recv])
    = (Ok tt,
       sample.engine
         [internal.NewElem (ast.SelectorExpr (ast.Ident "v") (ast.Ident "N"))
            (Some (types.NewSignature None [sample.var "x" sample.tInt]
                     [sample.var "" sample.tInt] false))]).
Proof.
  intros recv. split; [reflexivity|].
  destruct (MemberVal_method_first sample.ext "N" [] recv "T"
              (types.Struct [sample.var "N" sample.tString])
              [types.NewFunc_ "N"
                 (types.NewSignature_ (Some (sample.var "t" (types.Basic types.Invalid)))
                    [sample.var "x" sample.tInt] [sample.var "" sample.tInt] false)]
              (sample.engine [recv]))
    as (method & Hfind & _ & _ & ->).
  - reflexivity.
  - reflexivity.
  - eexists. split; [apply list_elem_of_here | reflexivity].
  - vm_compute in Hfind. injection Hfind as <-. reflexivity.
Defined.

(** ** C9: the scope of a function body *)

Lemma insertParams_run sc params p :
  insertParams (Some sc) params p
  = (Ok tt, set_heap (insertAll sc (named params) (heap p)) p).
Proof.
  revert p. induction params as [|v params IH]; intros p.
  - by destruct p.
  - cbn [insertParams named List.filter].
    unfold mbind, M_bind.
    destruct (negb (String.eqb (types.var_name v) "")); simpl.
    + rewrite IH. by destruct p.
    + unfold mret, M_ret. rewrite IH. done.
Qed.

Lemma Insert_length l obj st : length (scope.Insert l obj st) = length st.
Proof.
  unfold scope.Insert. destruct (scope.Lookup st l _); [done|].
  apply length_alter.
Qed.

Lemma Insert_other l obj st l' : l ≠ l' → scope.Insert l obj st !! l' = st !! l'.
Proof.
  intros ?. unfold scope.Insert. destruct (scope.Lookup st l _); [done|].
  by apply list_lookup_alter_ne.
Qed.

Lemma Insert_same l obj st s :
  st !! l = Some s →
  ∃ s', scope.Insert l obj st !! l = Some s'
        ∧ scope.parent s' = scope.parent s
        ∧ scope.children s' = scope.children s
        ∧ ∀ name, scope.elems s' !! name
                  = match scope.elems s !! name with
                    | Some o => Some o
                    | None => if decide (types.Object_Name obj = name)
                              then Some obj else None
                    end.
Proof.
  intros Hs. unfold scope.Insert, scope.Lookup. rewrite Hs. simpl.
  destruct (scope.elems s !! types.Object_Name obj) as [alt|] eqn:Halt.
  - exists s. split_and!; try done. intros name.
    destruct (scope.elems s !! name) eqn:E; [done|].
    case_decide; congruence.
  - eexists. rewrite list_lookup_alter_eq, Hs. simpl. split_and!; try done.
    intros name. simpl. rewrite lookup_insert. case_decide.
    + subst. by rewrite Halt.
    + by destruct (scope.elems s !! name).
Qed.

Lemma insertAll_cons sc v vars h :
  insertAll sc (v :: vars) h = insertAll sc vars (scope.Insert sc (types.ObjVar v) h).
Proof. done. Qed.

Lemma insertAll_app sc vars1 vars2 h :
  insertAll sc (vars1 ++ vars2) h = insertAll sc vars2 (insertAll sc vars1 h).
Proof. unfold insertAll. apply foldl_app. Qed.

Lemma named_app params results : named (params ++ results) = named params ++ named results.
Proof. unfold named. apply List.filter_app. Qed.

Lemma insertAll_other sc vars h l' : sc ≠ l' → insertAll sc vars h !! l' = h !! l'.
Proof.
  intros ?. revert h. induction vars as [|v vars IH]; intros h; [done|].
  rewrite insertAll_cons, IH. by apply Insert_other.
Qed.

Lemma insertAll_same sc vars h s :
  h !! sc = Some s →
  ∃ s', insertAll sc vars h !! sc = Some s'
        ∧ scope.parent s' = scope.parent s
        ∧ scope.children s' = scope.children s
        ∧ ∀ name, scope.elems s' !! name
                  = match scope.elems s !! name with
                    | Some o => Some o
                    | None =>
                        types.ObjVar
                          <$> List.find (λ v, String.eqb (types.var_name v) name) vars
                    end.
Proof.
  revert h s. induction vars as [|v vars IH]; intros h s Hs.
  - exists s. split_and!; try done. intros name. by destruct (scope.elems s !! name).
  - rewrite insertAll_cons.
    destruct (Insert_same sc (types.ObjVar v) h s Hs) as (s1 & H1 & Hp1 & Hc1 & He1).
    destruct (IH _ _ H1) as (s' & H' & Hp' & Hc' & He').
    exists s'. split_and!; [done|congruence|congruence|].
    intros name. rewrite He', He1.
    destruct (scope.elems s !! name); [done|]. simpl.
    case_decide as Hn.
    + subst. by rewrite String.eqb_refl.
    + apply String.eqb_neq in Hn. by rewrite Hn.
Qed.

Lemma NewScope_fresh par cmt st :
  ∃ st', scope.NewScope par cmt st = (length st, st' ++ [scope.NewScope_ par [] ∅ cmt])
         ∧ length st' = length st
         ∧ ∀ l name, scope.Lookup st' l name = scope.Lookup st l name.
Proof.
  unfold scope.NewScope. destruct par as [q|].
  - eexists. split_and!; [done|apply length_alter|].
    intros l name. unfold scope.Lookup.
    destruct (decide (q = l)) as [->|].
    + rewrite list_lookup_alter_eq. by destruct (st !! l).
    + by rewrite list_lookup_alter_ne.
  - by exists st.
Qed.

Lemma firstNamed_empty params : firstNamed "" params = None.
Proof.
  unfold firstNamed, named.
  destruct (List.find _ _) as [v|] eqn:Hf; [|done].
  apply find_some in Hf as [Hin Hv]. apply filter_In in Hin as [_ Hne].
  by rewrite Hv in Hne.
Qed.

Lemma firstNamed_Some name params v :
  firstNamed name params = Some v →
  v ∈ params ∧ types.var_name v = name ∧ name ≠ "".
Proof.
  unfold firstNamed, named. intros Hf.
  apply find_some in Hf as [Hin Hv]. apply filter_In in Hin as [Hin Hne].
  apply String.eqb_eq in Hv. subst. split_and!; [by apply list_elem_of_In|done|].
  intros E. by rewrite E in Hne.
Qed.

Lemma firstNamed_is_Some params v :
  v ∈ params → types.var_name v ≠ "" → is_Some (firstNamed (types.var_name v) params).
Proof.
  intros Hin Hne. unfold firstNamed.
  destruct (List.find _ _) as [w|] eqn:Hf; [by eexists|].
  exfalso. pose proof (find_none _ _ Hf v) as Hv. simpl in Hv.
  rewrite String.eqb_refl in Hv. apply Bool.diff_true_false, Hv.
  unfold named. apply filter_In. split; [by apply list_elem_of_In|].
  apply String.eqb_neq in Hne. by rewrite Hne.
Qed.

Lemma find_name_NoDup (vars : list types.Var) (v : types.Var) :
  NoDup (types.var_name <$> vars) → v ∈ vars →
  List.find (λ w, String.eqb (types.var_name w) (types.var_name v)) vars = Some v.
Proof.
  induction vars as [|w vars IH]; intros Hnd Hv; [by apply elem_of_nil in Hv|].
  rewrite fmap_cons in Hnd. apply NoDup_cons in Hnd as [Hw Hnd].
  cbn [List.find]. apply elem_of_cons in Hv as [->|Hv].
  - by rewrite String.eqb_refl.
  - destruct (String.eqb_spec (types.var_name w) (types.var_name v)) as [E|_].
    + exfalso. apply Hw. rewrite E. by apply list_elem_of_fmap_2.
    + by apply IH.
Qed.

(** C9. [startFuncBody] enters a block whose scope is a new scope, child
    of the scope that was current, and hands to [Scope.Insert], in order,
    exactly the declared parameters and then results whose name is not
    empty. In that scope a name resolves if and only if it is the
    (non-empty) name of a declared parameter or result, to the first one so
    named; the empty name does not resolve, so a parameter or result
    without a name cannot be referred to. The scopes that existed before
    resolve as before. *)
Theorem startFuncBody_scope (f : types.Func) (p : CodeBuilder) :
  let declared := types.sig_params (types.func_sig f)
                  ++ types.sig_results (types.func_sig f) in
  let sc := length (heap p) in
  ∃ p' s,
    startFuncBody f p = (Ok (current p), p')
    ∧ scope (current_ctx p') = Some sc
    ∧ heap p !! sc = None
    ∧ heap p' !! sc = Some s
    ∧ scope.parent s = scope (current_ctx p)
    ∧ (∃ h, (scope.NewScope (scope (current_ctx p))
               ("func " +:+ types.func_name f) (heap p)) = (sc, h)
            ∧ heap p' = insertAll sc (named declared) h)
    ∧ (∀ name, scope.Lookup (heap p') sc name
               = types.ObjVar <$> firstNamed name declared)
    ∧ scope.Lookup (heap p') sc "" = None
    ∧ (∀ v, v ∈ declared → types.var_name v ≠ "" →
            is_Some (scope.Lookup (heap p') sc (types.var_name v)))
    ∧ (∀ name, is_Some (scope.Lookup (heap p') sc name) →
               name ≠ "" ∧ ∃ v, v ∈ declared ∧ types.var_name v = name)
    ∧ (NoDup (types.var_name <$> named declared) →
       ∀ v, v ∈ declared → types.var_name v ≠ "" →
            scope.Lookup (heap p') sc (types.var_name v) = Some (types.ObjVar v))
    ∧ (∀ l name, l ≠ sc → scope.Lookup (heap p') l name = scope.Lookup (heap p) l name).
Proof.
  intros declared sc.
  destruct (NewScope_fresh (scope (current_ctx p)) ("func " +:+ types.func_name f)
              (heap p)) as (st' & HN & Hlen & Hold).
  set (new := scope.NewScope_ (scope (current_ctx p)) [] ∅
                ("func " +:+ types.func_name f)) in *.
  set (h := st' ++ [new]) in *.
  assert (h !! sc = Some new) as Hsc.
  { unfold h, sc. rewrite <- Hlen. apply list_lookup_middle. done. }
  destruct (insertAll_same sc (named declared) h new Hsc)
    as (s & Hs & Hpar & _ & Helems).
  assert (∀ name, scope.Lookup (insertAll sc (named declared) h) sc name
                  = types.ObjVar <$> firstNamed name declared) as Hlook.
  { intros name. unfold scope.Lookup. rewrite Hs. simpl. rewrite Helems.
    unfold new. simpl. by rewrite lookup_empty. }
  exists (set_heap (insertAll sc (named declared) h)
            (set_codeBlockCtx
               (NewCodeBlockCtx (Some (BlockFunc f)) (Some sc)
                  (internal.Len (stk p)) [])
               (set_fn (Some f) p))), s.
  split_and!.
  - unfold startFuncBody, mbind, M_bind, gets, modify, lift, startBlockStmt.
    cbn beta iota zeta. unfold current_ctx at 1. cbn [set_fn current set_current heap
      codeBlockCtx_]. fold (current_ctx p). rewrite HN. cbn beta iota zeta.
    change (as_Signature (types.Func_Type f)) with (Ok (types.func_sig f)).
    cbn beta iota.
    change (scope (current_ctx (set_codeBlockCtx ?c ?q))) with (scope c).
    cbn [scope]. rewrite insertParams_run. cbn beta iota.
    rewrite insertParams_run. unfold mret, M_ret.
    f_equal; [by destruct p as [? []]|].
    unfold declared. rewrite named_app, insertAll_app. done.
  - done.
  - apply lookup_ge_None_2. unfold sc. lia.
  - done.
  - by rewrite Hpar.
  - exists h. split; done.
  - done.
  - simpl. rewrite Hlook. by rewrite firstNamed_empty.
  - intros v Hv Hne. simpl. rewrite Hlook.
    destruct (firstNamed_is_Some declared v Hv Hne) as [w ->]. by eexists.
  - intros name [o Ho]. simpl in Ho. rewrite Hlook in Ho.
    destruct (firstNamed name declared) as [v|] eqn:Hf; [|done].
    apply firstNamed_Some in Hf as (? & ? & ?). eauto.
  - intros Hnd v Hv Hne. simpl. rewrite Hlook. unfold firstNamed.
    rewrite find_name_NoDup; [done|done|].
    unfold named. apply list_elem_of_In, filter_In.
    split; [by apply list_elem_of_In|].
    apply String.eqb_neq in Hne. by rewrite Hne.
  - intros l name Hl. simpl. unfold scope.Lookup.
    rewrite insertAll_other by done.
    destruct (decide (l < length st')%nat).
    + unfold h. rewrite lookup_app_l by done. apply Hold.
    + unfold h. rewrite !lookup_ge_None_2; [done|unfold sc in *; lia|].
      rewrite length_app. simpl. unfold sc in *. lia.
Qed.

Lemma startFuncBody_scope_witness :
  ∃ p',
    startFuncBody sample.h (sample.engine []) = (Ok (current (sample.engine [])), p')
    ∧ scope (current_ctx p') = Some 2%nat
    ∧ scope.Lookup (heap p') 2%nat "a"
      = Some (types.ObjVar (sample.var "a" sample.tInt))
    ∧ scope.Lookup (heap p') 2%nat "r"
      = Some (types.ObjVar (sample.var "r" sample.tInt))
    ∧ scope.Lookup (heap p') 2%nat "" = None
    ∧ scope.Lookup (heap p') 0%nat "a" = None.
Proof.
  destruct (startFuncBody_scope sample.h (sample.engine []))
    as (p' & s & Hrun & Hsc & _ & _ & _ & _ & Hlook & Hempty & _ & _ & _ & Hold).
  exists p'. split_and!; [exact Hrun | exact Hsc | | | exact Hempty | ].
  - exact (Hlook "a").
  - exact (Hlook "r").
  - exact (Hold 0%nat "a" (Nat.neq_0_succ 1)).
Defined.

(** ** C4: assignment from one multi-valued source *)

Lemma index_lookup {A} (s : list A) (j : nat) (x : A) :
  s !! j = Some x → index s (Z.of_nat j) = Ok x.
Proof.
  intros H. unfold index. pose proof (lookup_lt_Some _ _ _ H).
  destruct (Z.ltb_spec (Z.of_nat j) 0); [lia|].
  destruct (Z.leb_spec (Z.of_nat (length s)) (Z.of_nat j)); [lia|].
  simpl. by rewrite Nat2Z.id, H.
Qed.

Lemma index_out {A} (s : list A) (i : Z) :
  Z.of_nat (length s) <= i → index s i = Err (RuntimeError "index out of range").
Proof.
  intros H. unfold index.
  destruct (Z.leb_spec (Z.of_nat (length s)) i); [|lia].
  by rewrite orb_true_r.
Qed.

Section AssignProperties.

Context (ext : Externals).

Lemma spreadBody_at pkg_ args rhsVals j t rv :
  args !! j = Some t → rhsVals !! j = Some rv →
  spreadBody ext pkg_ args rhsVals (Z.of_nat j)
  = (assignMatchType ext pkg_ (internal.Typ t) (Some (types.var_type rv));;
     Ok (internal.Val t)).
Proof.
  intros Ht Hrv. unfold spreadBody.
  rewrite (index_lookup _ _ _ Ht). cbn [mbind result_bind].
  by rewrite (index_lookup _ _ _ Hrv).
Qed.

Lemma spread_loop_ok pkg_ targets rhsVals more done_ dvals :
  length done_ = length dvals →
  Forall2 (assignable ext pkg_) targets rhsVals →
  for_range (Z.of_nat (length done_)) (length targets)
    (spreadBody ext pkg_ (done_ ++ targets ++ more) (dvals ++ rhsVals))
  = Ok (internal.Val <$> targets).
Proof.
  intros Hlen HF. revert done_ dvals Hlen.
  induction HF as [|t rv targets rhsVals Hok HF IH]; intros done_ dvals Hlen; [done|].
  cbn [length for_range].
  rewrite (spreadBody_at _ _ _ (length done_) t rv)
    by (by apply list_lookup_middle).
  unfold assignable in Hok. rewrite Hok. cbn [mbind result_bind].
  specialize (IH (done_ ++ [t]) (dvals ++ [rv])).
  rewrite <- !app_assoc, !length_app in IH. cbn [app length] in IH.
  replace (Z.of_nat (length done_) + 1) with (Z.of_nat (length done_ + 1)) by lia.
  cbn [app]. rewrite IH by lia. done.
Qed.

Lemma spread_loop_inv pkg_ targets rhsVals more done_ dvals ls :
  length done_ = length dvals →
  length targets = length rhsVals →
  for_range (Z.of_nat (length done_)) (length targets)
    (spreadBody ext pkg_ (done_ ++ targets ++ more) (dvals ++ rhsVals))
  = Ok ls →
  Forall2 (assignable ext pkg_) targets rhsVals.
Proof.
  revert rhsVals done_ dvals ls.
  induction targets as [|t targets IH]; intros [|rv rhsVals] done_ dvals ls Hlen Hl H;
    try discriminate; [constructor|].
  cbn [length for_range] in H.
  rewrite (spreadBody_at _ _ _ (length done_) t rv) in H
    by (by apply list_lookup_middle).
  destruct (assignMatchType ext pkg_ (internal.Typ t) (Some (types.var_type rv)))
    as [[]|] eqn:Hok; [|discriminate].
  cbn [mbind result_bind] in H.
  constructor; [done|].
  specialize (IH rhsVals (done_ ++ [t]) (dvals ++ [rv])).
  rewrite <- !app_assoc, !length_app in IH. cbn [app length] in IH.
  replace (Z.of_nat (length done_) + 1) with (Z.of_nat (length done_ + 1)) in H by lia.
  cbn [app] in H.
  destruct (for_range _ _ _) as [ls'|] eqn:Hrest; [|discriminate].
  eapply IH; [|simpl in Hl; lia|reflexivity]. lia.
Qed.

Lemma stk_GetArgs_app (rest l : internal.Stack) n p :
  stk p = rest ++ l → n = Z.of_nat (length l) → stk_GetArgs n p = (Ok l, p).
Proof. intros Hs ->. unfold stk_GetArgs. by rewrite Hs, GetArgs_app. Qed.

Lemma stk_PopN_app (rest l : internal.Stack) n p :
  stk p = rest ++ l → n = Z.of_nat (length l) →
  stk_PopN n p = (Ok tt, set_stk rest p).
Proof.
  intros Hs ->. unfold stk_PopN, stk_update. by rewrite Hs, PopN_app.
Qed.

Lemma int_add_small a b : 0 <= a → 0 <= b → a + b <= int_max → int_add a b = a + b.
Proof. intros. unfold int_add. apply int_wrap_id. int_lia. Qed.

Lemma Assign_spread_run rest targets src p :
  stk p = rest ++ targets ++ [src] →
  internal.Len (stk p) <= int_max →
  length targets ≠ 1%nat →
  Assign ext (Z.of_nat (length targets)) [1] p
  = match internal.Typ src with
    | Some (types.Tuple rhsVals) =>
        if negb (Z.of_nat (length targets) =? Z.of_nat (length rhsVals))
        then (Err unmatch, p)
        else match for_range 0 (length targets)
                     (spreadBody ext (pkg p) (targets ++ [src]) rhsVals) with
             | Ok ls =>
                 (Ok tt,
                  append_stmt (ast.AssignStmt ls token.ASSIGN [internal.Val src])
                    (set_stk rest p))
             | Err e => (Err e, p)
             end
    | _ => (Err unmatch, p)
    end.
Proof.
  intros Hs Hmax Hk.
  assert (internal.Len (stk p)
          = Z.of_nat (length rest) + Z.of_nat (length targets) + 1) as HL.
  { unfold internal.Len. rewrite Hs, !length_app. simpl. lia. }
  assert (int_add (Z.of_nat (length targets)) 1
          = Z.of_nat (length (targets ++ [src]))) as Hw.
  { rewrite int_add_small by lia. rewrite length_app. simpl. lia. }
  unfold Assign. cbn [Assign_rhs]. rewrite Hw.
  unfold mbind at 1, M_bind at 1.
  rewrite (stk_GetArgs_app rest (targets ++ [src])) by done.
  unfold make, lift, gets.
  destruct (Z.ltb_spec (Z.of_nat (length targets)) 0); [lia|].
  change (1 <? 0) with false.
  destruct (Z.eqb_spec (Z.of_nat (length targets)) 1); [lia|].
  change (1 =? 1) with true.
  unfold mbind, M_bind. cbn beta iota.
  rewrite (index_lookup _ _ src) by (by apply list_lookup_middle).
  destruct (internal.Typ src) as [[]|]; try done.
  destruct (negb _); [done|].
  rewrite Nat2Z.id. fold (spreadBody ext (pkg p) (targets ++ [src]) vars).
  destruct (for_range _ _ _) as [ls|]; [|done].
  unfold mret, M_ret, modify. cbn beta iota.
  rewrite (stk_PopN_app rest (targets ++ [src])) by done.
  by destruct p as [? [[]]].
Qed.

Lemma Assign_other_fails lhs rhs p :
  lhs ≠ rhs → rhs ≠ 1 → ∃ e, Assign ext lhs [rhs] p = (Err e, p).
Proof.
  intros Hne H1. unfold Assign. cbn [Assign_rhs].
  unfold mbind, M_bind, stk_GetArgs, lift, gets.
  destruct (internal.GetArgs _ _); [|by eexists].
  destruct (make lhs); [|by eexists].
  destruct (make rhs); [|by eexists].
  destruct (Z.eqb_spec lhs rhs); [done|].
  destruct (Z.eqb_spec rhs 1); [done|].
  by eexists.
Qed.

Lemma Assign_other_unmatch lhs rhs p :
  lhs ≠ rhs → rhs ≠ 1 → 0 <= lhs → 0 <= rhs →
  lhs + rhs <= internal.Len (stk p) → internal.Len (stk p) <= int_max →
  Assign ext lhs [rhs] p = (Err unmatch, p).
Proof.
  intros Hne H1 Hl Hr Hlen Hmax. unfold Assign. cbn [Assign_rhs].
  rewrite int_add_small by lia.
  unfold mbind, M_bind, stk_GetArgs, lift, gets, internal.GetArgs.
  rewrite check_count_valid by lia. cbn [mbind result_bind].
  unfold make.
  destruct (Z.ltb_spec lhs 0); [lia|].
  destruct (Z.ltb_spec rhs 0); [lia|].
  destruct (Z.eqb_spec lhs rhs); [done|].
  destruct (Z.eqb_spec rhs 1); [done|].
  done.
Qed.

End AssignProperties.

(** C4. With one source and [k] targets, [k] other than 1, on a stack that
    holds the targets and the source: [Assign] ends well exactly when the
    source is typed as a tuple whose elements, as many as there are
    targets, can each be assigned to the target at the same position; it
    then pops the operands and appends one assignment statement with the
    [k] target expressions on the left and the one source expression on the
    right. A source that is no tuple of [k] elements fails with the
    mismatch panic. Every call with a number of sources other than 1 and
    other than the number of targets fails, and with the mismatch panic
    when the counts are not negative and the operands are on the stack. A
    failed call leaves the engine as it was. *)
Theorem Assign_tuple_spread (ext : Externals) (p : CodeBuilder) :
  internal.Len (stk p) <= int_max →
  (∀ rest targets src,
     stk p = rest ++ targets ++ [src] → length targets ≠ 1%nat →
     let k := Z.of_nat (length targets) in
     let spread rhsVals :=
       internal.Typ src = Some (types.Tuple rhsVals)
       ∧ Forall2 (assignable ext (pkg p)) targets rhsVals in
     ((∃ p', Assign ext k [1] p = (Ok tt, p')) ↔ ∃ rhsVals, spread rhsVals)
     ∧ (∀ p', Assign ext k [1] p = (Ok tt, p') →
              p' = append_stmt
                     (ast.AssignStmt (internal.Val <$> targets) token.ASSIGN
                        [internal.Val src])
                     (set_stk rest p))
     ∧ ((∀ rhsVals, internal.Typ src = Some (types.Tuple rhsVals) →
                    length rhsVals ≠ length targets) →
        Assign ext k [1] p = (Err unmatch, p))
     ∧ (∀ r p', Assign ext k [1] p = (r, p') → r ≠ Ok tt → p' = p))
  ∧ (∀ lhs rhs,
       lhs ≠ rhs → rhs ≠ 1 →
       (∃ e, Assign ext lhs [rhs] p = (Err e, p))
       ∧ (0 <= lhs → 0 <= rhs → lhs + rhs <= internal.Len (stk p) →
          Assign ext lhs [rhs] p = (Err unmatch, p))).
Proof.
  intros Hmax. split.
  - intros rest targets src Hs Hk k spread.
    pose proof (Assign_spread_run ext rest targets src p Hs Hmax Hk) as Hrun.
    fold k in Hrun.
    assert (∀ rhsVals, internal.Typ src = Some (types.Tuple rhsVals) →
              Forall2 (assignable ext (pkg p)) targets rhsVals →
              Assign ext k [1] p
              = (Ok tt,
                 append_stmt
                   (ast.AssignStmt (internal.Val <$> targets) token.ASSIGN
                      [internal.Val src])
                   (set_stk rest p))) as Hok.
    { intros rhsVals Hty HF. rewrite Hrun, Hty.
      pose proof (Forall2_length _ _ _ HF) as Hlen.
      unfold k. rewrite Hlen, Z.eqb_refl. cbn [negb]. rewrite <- Hlen.
      pose proof (spread_loop_ok ext (pkg p) targets rhsVals [src] [] [] eq_refl HF)
        as Hloop.
      change (Z.of_nat (@length internal.Elem [])) with 0 in Hloop.
      cbn [app] in Hloop. by rewrite Hloop. }
    assert (∀ p', Assign ext k [1] p = (Ok tt, p') → ∃ rhsVals, spread rhsVals)
      as Hinv.
    { intros p' H. rewrite Hrun in H.
      destruct (internal.Typ src) as [[]|] eqn:Hty; try discriminate.
      destruct (Z.eqb_spec k (Z.of_nat (length vars))) as [Hlen|]; [|discriminate].
      cbn [negb] in H.
      destruct (for_range _ _ _) as [ls|] eqn:Hloop; [|discriminate].
      exists vars. split; [done|].
      eapply (spread_loop_inv ext (pkg p) targets vars [src] [] []);
        [done|unfold k in Hlen; lia|exact Hloop]. }
    split_and!.
    + split; [intros [p' H]; eauto|].
      intros (rhsVals & Hty & HF). eauto.
    + intros p' H. destruct (Hinv p' H) as (rhsVals & Hty & HF).
      rewrite (Hok rhsVals Hty HF) in H. by injection H as <-.
    + intros Hno. rewrite Hrun.
      destruct (internal.Typ src) as [[]|] eqn:Hty; try done.
      destruct (Z.eqb_spec k (Z.of_nat (length vars))) as [Hlen|]; [|done].
      exfalso. apply (Hno vars eq_refl). unfold k in Hlen. lia.
    + intros r p' H Hr. rewrite Hrun in H.
      destruct (internal.Typ src) as [[]|]; try (by injection H as <- <-).
      destruct (negb _); [by injection H as <- <-|].
      destruct (for_range _ _ _); injection H as <- <-; [done|done].
  - intros lhs rhs Hne H1. split.
    + by apply Assign_other_fails.
    + intros. by apply Assign_other_unmatch.
Qed.

Lemma Assign_tuple_spread_witness :
  let src := sample.operand "f(x)"
               (types.Tuple [sample.var "" sample.tInt; sample.var "" sample.tString]) in
  let p := sample.engine [sample.target "a" sample.tInt;
                          sample.target "b" sample.tString; src] in
  internal.Len (stk p) <= int_max
  ∧ Assign sample.ext 2 [1] p
    = (Ok tt,
       append_stmt
         (ast.AssignStmt [ast.Ident "a"; ast.Ident "b"] token.ASSIGN
            [ast.Ident "f(x)"])
         (sample.engine [])).
Proof.
  intros src p.
  assert (internal.Len (stk p) <= int_max) as Hmax by (vm_compute; discriminate).
  split; [exact Hmax|].
  destruct (Assign_tuple_spread sample.ext p Hmax) as [H _].
  destruct (H [] [sample.target "a" sample.tInt; sample.target "b" sample.tString]
              src eq_refl) as ([_ Hex] & Huniq & _); [simpl; lia|].
  destruct Hex as [p' Hp'].
  { eexists. split; [reflexivity|]. repeat constructor. }
  change (Z.of_nat (length [sample.target "a" sample.tInt;
                            sample.target "b" sample.tString])) with 2 in *.
  rewrite Hp'. f_equal. by apply Huniq.
Defined.

(** ** Identity of types *)

Lemma list_eqb_refl {A : Type} (eqb : A → A → bool) (P : A → Type) (l : list A) :
  (∀ x, P x → eqb x x = true) → types.list_all A P l → types.list_eqb eqb l l = true.
Proof.
  intros Hx Hl. induction Hl as [|x Px l _ IH]; simpl; [done|].
  by rewrite (Hx x Px), IH.
Qed.

Lemma Var_eqb_refl {T : Set} (eqb : T → T → bool) (P : T → Prop) (v : types.Var_ T) :
  (∀ x, P x → eqb x x = true) →
  types.Var__all@{Prop; Set Set} T P v → types.Var_eqb eqb v v = true.
Proof.
  intros Hx [n t Pt]. unfold types.Var_eqb; simpl.
  by rewrite String.eqb_refl, (Hx t Pt).
Qed.

Lemma Signature_eqb_refl {T : Set} (eqb : T → T → bool) (P : T → Prop)
    (s : types.Signature_ T) :
  (∀ x, P x → eqb x x = true) →
  types.Signature__all@{Prop; Set Set Set Set Set} T P s →
  types.Signature_eqb eqb s s = true.
Proof.
  intros Hx [r Hr ps Hps rs Hrs v]. unfold types.Signature_eqb; simpl.
  rewrite !(list_eqb_refl _ (types.Var__all@{Prop; Set Set} T P))
    by eauto using Var_eqb_refl.
  rewrite Bool.eqb_reflx, !andb_true_r.
  destruct Hr; simpl; [by eapply Var_eqb_refl | done].
Qed.

Lemma Func_eqb_refl {T : Set} (eqb : T → T → bool) (P : T → Prop) (f : types.Func_ T) :
  (∀ x, P x → eqb x x = true) →
  types.Func__all@{Prop; Set Set Set Set Set Set} T P f →
  types.Func_eqb eqb f f = true.
Proof.
  intros Hx [n s Hs]. unfold types.Func_eqb; simpl.
  by rewrite String.eqb_refl, (Signature_eqb_refl _ P).
Qed.

Lemma type_eqb_refl (t : types.type) : types.type_eqb t t = true.
Proof.
  induction t; simpl.
  - apply Z.eqb_refl.
  - done.
  - rewrite String.eqb_refl, IHt; simpl.
    eapply list_eqb_refl; [|eassumption]. intros f. by apply Func_eqb_refl.
  - eapply list_eqb_refl; [|eassumption]. intros f. by apply Var_eqb_refl.
  - by eapply Signature_eqb_refl; [|eassumption].
  - eapply list_eqb_refl; [|eassumption]. intros f. by apply Var_eqb_refl.
  - by rewrite IHt1, IHt2.
  - done.
  - by rewrite IHt, Z.eqb_refl.
  - eapply list_eqb_refl; [|eassumption]. intros f. by apply Func_eqb_refl.
  - match goal with H : types.option_all _ _ _ |- _ => destruct H end; simpl; eauto.
Qed.


Lemma list_eqb_eq {A : Type} (eqb : A → A → bool) (P : A → Type) (l l' : list A) :
  (∀ x, P x → ∀ y, eqb x y = true → x = y) →
  types.list_all A P l → types.list_eqb eqb l l' = true → l = l'.
Proof.
  intros Hx Hl. revert l'.
  induction Hl as [|x Px l _ IH]; intros [|y l'] H; simpl in H; try done.
  apply andb_prop in H as [H1 H2]. f_equal; eauto.
Qed.

Lemma Var_eqb_eq {T : Set} (eqb : T → T → bool) (P : T → Prop) (v : types.Var_ T) :
  (∀ x, P x → ∀ y, eqb x y = true → x = y) →
  types.Var__all@{Prop; Set Set} T P v → ∀ w, types.Var_eqb eqb v w = true → v = w.
Proof.
  intros Hx [n t Pt] [m u] H. unfold types.Var_eqb in H; simpl in H.
  apply andb_prop in H as [H1 H2]. apply String.eqb_eq in H1.
  f_equal; eauto.
Qed.

Lemma Signature_eqb_eq {T : Set} (eqb : T → T → bool) (P : T → Prop)
    (s : types.Signature_ T) :
  (∀ x, P x → ∀ y, eqb x y = true → x = y) →
  types.Signature__all@{Prop; Set Set Set Set Set} T P s →
  ∀ u, types.Signature_eqb eqb s u = true → s = u.
Proof.
  intros Hx [r Hr ps Hps rs Hrs v] [r' ps' rs' v'] H.
  unfold types.Signature_eqb in H; simpl in H.
  apply andb_prop in H as [H Hv]. apply andb_prop in H as [H Hrs'].
  apply andb_prop in H as [Hr' Hps']. apply Bool.eqb_prop in Hv.
  apply (list_eqb_eq _ (types.Var__all@{Prop; Set Set} T P)) in Hps';
    [|eauto using Var_eqb_eq|done].
  apply (list_eqb_eq _ (types.Var__all@{Prop; Set Set} T P)) in Hrs';
    [|eauto using Var_eqb_eq|done].
  subst. f_equal.
  destruct Hr as [x Hxall|]; destruct r' as [y|]; simpl in Hr'; try done.
  f_equal. by eapply Var_eqb_eq.
Qed.

Lemma Func_eqb_eq {T : Set} (eqb : T → T → bool) (P : T → Prop) (f : types.Func_ T) :
  (∀ x, P x → ∀ y, eqb x y = true → x = y) →
  types.Func__all@{Prop; Set Set Set Set Set Set} T P f →
  ∀ g, types.Func_eqb eqb f g = true → f = g.
Proof.
  intros Hx [n s Hs] [m u] H. unfold types.Func_eqb in H; simpl in H.
  apply andb_prop in H as [H1 H2]. apply String.eqb_eq in H1.
  apply (Signature_eqb_eq _ P) in H2; [|done..]. by subst.
Qed.

Lemma BasicKind_eqb_eq a b : types.BasicKind_eqb a b = true → a = b.
Proof. destruct a, b; simpl; intros H; try done; discriminate. Qed.

Lemma type_eqb_eq (a b : types.type) : types.type_eqb a b = true → a = b.
Proof.
  revert b. induction a; intros [] Heq; simpl in Heq; try discriminate.
  - f_equal. by apply BasicKind_eqb_eq.
  - f_equal. eauto.
  - apply andb_prop in Heq as [Heq H3]. apply andb_prop in Heq as [H1 H2].
    apply String.eqb_eq in H1. f_equal; [done|eauto|].
    eapply list_eqb_eq; [|eassumption|done]. intros f. by apply Func_eqb_eq.
  - f_equal. eapply list_eqb_eq; [|eassumption|done]. intros f. by apply Var_eqb_eq.
  - f_equal. eapply Signature_eqb_eq; [|eassumption|exact Heq].
    intros x Hx. exact Hx.
  - f_equal. eapply list_eqb_eq; [|eassumption|done]. intros f. by apply Var_eqb_eq.
  - apply andb_prop in Heq as [H1 H2]. f_equal; eauto.
  - f_equal. eauto.
  - apply andb_prop in Heq as [H1 H2]. apply Z.eqb_eq in H2. f_equal; eauto.
  - f_equal. eapply list_eqb_eq; [|eassumption|done]. intros f. by apply Func_eqb_eq.
  - f_equal.
    match goal with
    | H : types.option_all _ _ ?o |- ?o = ?o' =>
        destruct H; destruct o'; simpl in *; try done
    end.
    f_equal. eauto.
Qed.

Lemma type_eqb_false (a b : types.type) : a ≠ b → types.type_eqb a b = false.
Proof.
  intros Hne. destruct (types.type_eqb a b) eqn:E; [|done].
  by apply type_eqb_eq in E.
Qed.

(** ** C5: the element type of a slice literal without a type *)

Section SliceLitProperties.

Context (ext : Externals).

Lemma select_from (done_ l : list internal.Elem) :
  for_range (Z.of_nat (length done_)) (length l)
    (λ j, index (done_ ++ l) (0 + j * 1))
  = Ok l.
Proof.
  revert done_. induction l as [|x l IH]; intros done_; [done|].
  cbn [length for_range]. cbn beta.
  replace (0 + Z.of_nat (length done_) * 1) with (Z.of_nat (length done_)) by lia.
  rewrite (index_lookup _ _ x) by (by apply list_lookup_middle).
  cbn [mbind result_bind].
  specialize (IH (done_ ++ [x])). rewrite <- app_assoc, length_app in IH.
  cbn [app length] in IH.
  replace (Z.of_nat (length done_) + 1) with (Z.of_nat (length done_ + 1)) by lia.
  by rewrite IH.
Qed.

Lemma mapM_typeOf args ts :
  internal.Typ <$> args = Some <$> ts → mapM typeOf args = Ok ts.
Proof.
  revert ts. induction args as [|e args IH]; intros [|t ts] H; try done.
  injection H as Ht H.
  change (mapM typeOf (e :: args))
    with (y ← typeOf e; k ← mapM typeOf args; mret (y :: k)).
  assert (typeOf e = Ok t) as -> by (unfold typeOf; by rewrite Ht).
  cbn [mbind result_bind]. by rewrite (IH ts H).
Qed.

Lemma boundElementType_all args ts :
  internal.Typ <$> args = Some <$> ts →
  boundElementType ext args 0 (Z.of_nat (length args)) 1
  = match ts with
    | [] => Err MismatchedElementTypes
    | t :: rest =>
        if forallb (types.type_eqb t) rest then Ok t
        else if forallb isUntyped ts then defaultTyping ext ts
        else Err MismatchedElementTypes
    end.
Proof.
  intros Hts. unfold boundElementType.
  replace (Z.to_nat ((Z.of_nat (length args) - 0 + 1 - 1) / 1)) with (length args)
    by (rewrite Z.div_1_r; lia).
  pose proof (select_from [] args) as Hsel. cbn [app length] in Hsel.
  change (Z.of_nat 0) with 0 in Hsel. rewrite Hsel. cbn [mbind result_bind].
  fold typeOf. by rewrite (mapM_typeOf _ _ Hts).
Qed.

Lemma mapM_unchecked what val args :
  mapM (check_assignable ext what false val) args = Ok (internal.Val <$> args).
Proof.
  induction args as [|e args IH]; [done|].
  change (mapM (check_assignable ext what false val) (e :: args))
    with (y ← check_assignable ext what false val e;
          k ← mapM (check_assignable ext what false val) args; mret (y :: k)).
  assert (check_assignable ext what false val e = Ok (internal.Val e)) as -> by done.
  cbn [mbind result_bind]. by rewrite IH.
Qed.

Lemma SliceLit_infer_run rest args p :
  stk p = rest ++ args → args ≠ [] →
  SliceLit ext None (Z.of_nat (length args)) [] p
  = match boundElementType ext args 0 (Z.of_nat (length args)) 1 with
    | Ok val => sliceLit_push ext rest args (types.NewSlice (types.Default val)) p
    | Err e => (Err e, p)
    end.
Proof.
  intros Hs Hne. unfold SliceLit. cbn [flag_set].
  unfold mbind at 1, M_bind at 1, gets at 1.
  destruct (Z.eqb_spec (Z.of_nat (length args)) 0) as [H0|_].
  { destruct args; [done|simpl in H0; lia]. }
  unfold mbind at 1, M_bind at 1.
  rewrite (stk_GetArgs_app rest args) by done.
  unfold mbind, M_bind, lift.
  destruct (boundElementType ext args 0 (Z.of_nat (length args)) 1) as [val|];
    [|done].
  unfold mret, M_ret, make.
  destruct (Z.ltb_spec (Z.of_nat (length args)) 0); [lia|].
  change (bool_decide (is_Some (@None types.type))) with false.
  rewrite mapM_unchecked. unfold sliceLit_push.
  destruct (toSliceType ext (pkg p) _); [|done].
  unfold stk_Ret, stk_update. by rewrite Hs, Ret_app.
Qed.

Lemma forallb_type_eqb t rest :
  forallb (types.type_eqb t) rest = true ↔ ∀ u, u ∈ rest → u = t.
Proof.
  rewrite forallb_forall. split.
  - intros H u Hu. apply list_elem_of_In in Hu. symmetry. by apply type_eqb_eq, H.
  - intros H u Hu. apply list_elem_of_In in Hu. rewrite (H u Hu).
    apply type_eqb_refl.
Qed.

End SliceLitProperties.

(** C5. [SliceLit] without a type and with [n > 0] operands takes the
    bound type of all [n] operands as element type and pushes a literal
    typed as the slice of the default type of that bound type: when all
    operand types are one type, that type (three [int] operands give a
    slice of [int]); when they differ and all are untyped constants, what
    the Oracle's default-typing rule gives (an untyped float among untyped
    integers gives a slice of [float64] once the rule picks the float);
    when they differ otherwise ([int] and [string]), the operation fails
    with [MismatchedElementTypes] and leaves the engine as it was. *)
Theorem SliceLit_bound_type (ext : Externals) (rest args : internal.Stack)
    (ts : list types.type) (p : CodeBuilder) :
  stk p = rest ++ args → args ≠ [] →
  internal.Typ <$> args = Some <$> ts →
  let run := SliceLit ext None (Z.of_nat (length args)) [] p in
  let pushes T := sliceLit_push ext rest args (types.NewSlice (types.Default T)) p in
  (∀ T, (∀ t, t ∈ ts → t = T) → run = pushes T)
  ∧ (¬ identical ts → (∀ t, t ∈ ts → isUntyped t = true) →
     run = match defaultTyping ext ts with
           | Ok T => pushes T
           | Err e => (Err e, p)
           end)
  ∧ (¬ identical ts → ¬ (∀ t, t ∈ ts → isUntyped t = true) →
     run = (Err MismatchedElementTypes, p)).
Proof.
  intros Hs Hne Hts run pushes.
  pose proof (SliceLit_infer_run ext rest args p Hs Hne) as Hrun. fold run in Hrun.
  rewrite (boundElementType_all ext args ts Hts) in Hrun.
  destruct ts as [|t ts'].
  { destruct args; [done|discriminate]. }
  assert (¬ identical (t :: ts') → forallb (types.type_eqb t) ts' = false) as Hdiff.
  { intros Hni. destruct (forallb _ ts') eqn:E; [|done].
    exfalso. apply Hni. rewrite forallb_type_eqb in E.
    intros a b Ha Hb. apply elem_of_cons in Ha, Hb.
    destruct Ha as [->|Ha], Hb as [->|Hb]; try done.
    - symmetry. by apply E.
    - by apply E.
    - by rewrite (E a Ha), (E b Hb). }
  split_and!.
  - intros T HT. rewrite Hrun.
    assert (t = T) as -> by (apply HT; left).
    assert (forallb (types.type_eqb T) ts' = true) as ->; [|done].
    apply forallb_type_eqb. intros u Hu. apply HT. by right.
  - intros Hni Hun. rewrite Hrun, (Hdiff Hni).
    assert (forallb isUntyped (t :: ts') = true) as ->; [|done].
    apply forallb_forall. intros u Hu. by apply Hun, list_elem_of_In.
  - intros Hni Hnun. rewrite Hrun, (Hdiff Hni).
    destruct (forallb isUntyped (t :: ts')) eqn:E; [|done].
    exfalso. apply Hnun. intros u Hu. rewrite forallb_forall in E.
    by apply E, list_elem_of_In.
Qed.

Lemma SliceLit_bound_type_witness :
  let int3 := [sample.operand "a" sample.tInt; sample.operand "b" sample.tInt;
               sample.operand "c" sample.tInt] in
  let mixed := [sample.operand "1" (types.Typ types.UntypedInt);
                sample.operand "2.5" (types.Typ types.UntypedFloat);
                sample.operand "3" (types.Typ types.UntypedInt)] in
  let clash := [sample.operand "a" sample.tInt; sample.operand "s" sample.tString] in
  SliceLit sample.ext None 3 [] (sample.engine int3)
  = (Ok tt,
     sample.engine
       [internal.NewElem
          (ast.CompositeLit (Some (ast.ArrayType None (ast.Ident "int")))
             [ast.Ident "a"; ast.Ident "b"; ast.Ident "c"])
          (Some (types.NewSlice sample.tInt))])
  ∧ SliceLit sample.ext None 3 [] (sample.engine mixed)
    = (Ok tt,
       sample.engine
         [internal.NewElem
            (ast.CompositeLit (Some (ast.ArrayType None (ast.Ident "float64")))
               [ast.Ident "1"; ast.Ident "2.5"; ast.Ident "3"])
            (Some (types.NewSlice (types.Typ types.Float64)))])
  ∧ SliceLit sample.ext None 2 [] (sample.engine clash)
    = (Err MismatchedElementTypes, sample.engine clash).
Proof.
  intros int3 mixed clash. split_and!.
  - destruct (SliceLit_bound_type sample.ext [] int3
                [sample.tInt; sample.tInt; sample.tInt] (sample.engine int3))
      as (H & _ & _); [reflexivity|discriminate|reflexivity|].
    change (Z.of_nat (length int3)) with 3 in H.
    rewrite (H sample.tInt); [reflexivity|].
    intros t Ht. repeat (apply elem_of_cons in Ht as [->|Ht]; [reflexivity|]).
    by apply elem_of_nil in Ht.
  - destruct (SliceLit_bound_type sample.ext [] mixed
                [types.Typ types.UntypedInt; types.Typ types.UntypedFloat;
                 types.Typ types.UntypedInt] (sample.engine mixed))
      as (_ & H & _); [reflexivity|discriminate|reflexivity|].
    change (Z.of_nat (length mixed)) with 3 in H.
    rewrite H; [reflexivity| |].
    + intros Hid. specialize (Hid (types.Typ types.UntypedInt)
                                (types.Typ types.UntypedFloat)).
      discriminate Hid; [left|right; left].
    + intros t Ht. repeat (apply elem_of_cons in Ht as [->|Ht]; [reflexivity|]).
      by apply elem_of_nil in Ht.
  - destruct (SliceLit_bound_type sample.ext [] clash
                [sample.tInt; sample.tString] (sample.engine clash))
      as (_ & _ & H); [reflexivity|discriminate|reflexivity|].
    change (Z.of_nat (length clash)) with 2 in H.
    apply H.
    + intros Hid. specialize (Hid sample.tInt sample.tString).
      discriminate Hid; [left|right; left].
    + intros Hun. specialize (Hun sample.tInt). discriminate Hun. left.
Defined.

(** * Further properties *)

(** ** A failed call changes nothing *)

Lemma keeps_atomic {A} (m : M A) : keeps m → atomic m.
Proof. intros H p e p'. apply H. Qed.

Lemma keeps_bind {A B} (m : M A) (f : A → M B) :
  keeps m → (∀ a, keeps (f a)) → keeps (m ≫= f).
Proof.
  intros Hm Hf p r p'. unfold mbind, M_bind.
  destruct (m p) as [[a|e] p1] eqn:E; apply Hm in E as ->.
  - apply Hf.
  - by intros [= <- <-].
Qed.

Lemma atomic_bind {A B} (m : M A) (f : A → M B) :
  keeps m → (∀ a, atomic (f a)) → atomic (m ≫= f).
Proof.
  intros Hm Hf p e p'. unfold mbind, M_bind.
  destruct (m p) as [[a|e'] p1] eqn:E; apply Hm in E as ->.
  - apply Hf.
  - by intros [= <- <-].
Qed.

Lemma atomic_then {A B} (m : M A) (f : A → M B) :
  atomic m → (∀ a, succeeds (f a)) → atomic (m ≫= f).
Proof.
  intros Hm Hf p e p'. unfold mbind, M_bind.
  destruct (m p) as [[a|e'] p1] eqn:E.
  - destruct (Hf a p1) as (b & p2 & ->). discriminate.
  - apply Hm in E as ->. by intros [= <- <-].
Qed.

Lemma keeps_gets {A} (f : CodeBuilder → A) : keeps (gets f).
Proof. intros p r p'. unfold gets. by intros [= <- <-]. Qed.

Lemma keeps_lift {A} (r : result A) : keeps (lift r).
Proof. intros p r' p'. unfold lift. by intros [= <- <-]. Qed.

Lemma keeps_panic {A} (e : error) : keeps (@panic A e).
Proof. intros p r' p'. unfold panic. by intros [= <- <-]. Qed.

Lemma keeps_ret {A} (a : A) : keeps (mret a : M A).
Proof. intros p r' p'. unfold mret, M_ret. by intros [= <- <-]. Qed.

Lemma keeps_stk_GetArgs n : keeps (stk_GetArgs n).
Proof. intros p r p'. unfold stk_GetArgs. by intros [= <- <-]. Qed.

Lemma keeps_stk_Get idx : keeps (stk_Get idx).
Proof. intros p r p'. unfold stk_Get. by intros [= <- <-]. Qed.

Lemma atomic_stk_update f : atomic (stk_update f).
Proof.
  intros p e p'. unfold stk_update. destruct (f (stk p)); [discriminate|].
  by intros [= <- <-].
Qed.

Lemma atomic_stk_Pop : atomic stk_Pop.
Proof.
  intros p e p'. unfold stk_Pop. destruct (internal.Pop (stk p)) as [[]|];
    [discriminate|]. by intros [= <- <-].
Qed.

Lemma atomic_modify f : atomic (modify f).
Proof. intros p e p'. unfold modify. discriminate. Qed.

Lemma succeeds_modify f : succeeds (modify f).
Proof. intros p. unfold modify. eauto. Qed.

Lemma succeeds_ret {A} (a : A) : succeeds (mret a : M A).
Proof. intros p. unfold mret, M_ret. eauto. Qed.

(** The shape of an operation decides: reads first, one change at the
    end. *)
Ltac keeps_tac :=
  repeat first
    [ apply keeps_gets | apply keeps_lift | apply keeps_panic | apply keeps_ret
    | apply keeps_stk_GetArgs | apply keeps_stk_Get
    | apply keeps_bind; [|intros ?]
    | match goal with
      | |- keeps (if ?b then _ else _) => destruct b
      | |- keeps (match ?x with _ => _ end) => destruct x
      end ].

Ltac atomic_tac :=
  repeat first
    [ apply atomic_stk_update | apply atomic_stk_Pop | apply atomic_modify
    | apply keeps_atomic; solve [keeps_tac]
    | apply atomic_bind; [solve [keeps_tac]|intros ?]
    | match goal with
      | |- atomic (if ?b then _ else _) => destruct b
      | |- atomic (match ?x with _ => _ end) => destruct x
      end ].

Section Atomic.

Context (ext : Externals).
Context (checkMatchFuncResults :
  Package → list internal.Elem → list types.Var → option error).

Lemma atomic_Call n ellipsis : atomic (Call ext n ellipsis).
Proof. unfold Call, stk_Ret. atomic_tac. Qed.

Lemma atomic_operatorCall arity opname op : atomic (operatorCall ext arity opname op).
Proof. unfold operatorCall, stk_Ret. atomic_tac. Qed.

Lemma atomic_MapLit t arity : atomic (MapLit ext t arity).
Proof. unfold MapLit, stk_Ret, stk_Push. atomic_tac. Qed.

Lemma atomic_SliceLit t arity keyVal : atomic (SliceLit ext t arity keyVal).
Proof. unfold SliceLit, stk_Ret, stk_Push. atomic_tac. Qed.

Lemma atomic_ArrayLit t arity keyVal : atomic (ArrayLit ext t arity keyVal).
Proof. unfold ArrayLit, stk_Ret. atomic_tac. Qed.

Lemma atomic_MemberVal name : atomic (MemberVal ext name).
Proof. unfold MemberVal, fieldVal, stk_Ret. atomic_tac. Qed.

Lemma atomic_Val v : atomic (Val ext v).
Proof. unfold Val, stk_Push. atomic_tac. Qed.

Lemma atomic_VarRef ref : atomic (VarRef ext ref).
Proof. unfold VarRef, stk_Push. atomic_tac. Qed.

Lemma atomic_EndStmt : atomic EndStmt.
Proof.
  unfold EndStmt, stk_Len.
  apply atomic_bind; [keeps_tac|intros len].
  apply atomic_bind; [keeps_tac|intros b].
  destruct (0 <? len - b); [|apply keeps_atomic; keeps_tac].
  destruct (negb _); [apply keeps_atomic; keeps_tac|].
  apply atomic_then; [apply atomic_stk_Pop|intros a; apply succeeds_modify].
Qed.

Lemma keeps_Err {A B} (m : M A) (f : A → M B) p e p' :
  keeps m → (m ≫= f) p = (Err e, p') →
  p' = p ∨ ∃ a, m p = (Ok a, p) ∧ f a p = (Err e, p').
Proof.
  intros Hm. unfold mbind, M_bind.
  destruct (m p) as [[a|e'] p1] eqn:E; pose proof (Hm _ _ _ E) as ->.
  - eauto.
  - intros [= <- <-]. by left.
Qed.

Lemma GetArgs_PopN n s args :
  internal.GetArgs n s = Ok args → ∃ s', internal.PopN n s = Ok s'.
Proof.
  unfold internal.GetArgs, internal.PopN.
  destruct (internal.check_count n s); [|discriminate]. simpl. eauto.
Qed.

Lemma atomic_Assign lhs v : atomic (Assign ext lhs v).
Proof.
  intros p e p' H. unfold Assign in H.
  apply keeps_Err in H; [|apply keeps_stk_GetArgs].
  destruct H as [?|(args & Hargs & H)]; [done|].
  unfold stk_GetArgs in Hargs. injection Hargs as Hargs.
  do 3 (apply keeps_Err in H; [|keeps_tac]; destruct H as [?|(? & _ & H)]; [done|]).
  apply keeps_Err in H; [|keeps_tac].
  destruct H as [?|([Lhs Rhs] & _ & H)]; [done|].
  exfalso. unfold mbind, M_bind, modify, stk_PopN, stk_update in H.
  cbn beta iota in H.
  destruct (GetArgs_PopN _ _ _ Hargs) as [s' Hs'].
  change (stk (append_stmt (ast.AssignStmt Lhs token.ASSIGN Rhs) p)) with (stk p) in H.
  rewrite Hs' in H. discriminate.
Qed.

Lemma atomic_Return n : atomic (Return checkMatchFuncResults n).
Proof.
  unfold Return.
  apply atomic_bind; [keeps_tac|intros f]. destruct f; [|apply keeps_atomic; keeps_tac].
  apply atomic_bind; [keeps_tac|intros sig].
  apply atomic_bind; [keeps_tac|intros args].
  apply atomic_bind; [keeps_tac|intros pkg_].
  destruct (checkMatchFuncResults _ _ _); [apply keeps_atomic; keeps_tac|].
  apply atomic_then; [|intros a; apply succeeds_modify].
  destruct (0 <? n); [|apply keeps_atomic; keeps_tac].
  apply atomic_bind; [keeps_tac|intros ?].
  apply atomic_bind; [keeps_tac|intros rets].
  apply atomic_then; [apply atomic_stk_update|intros ?; apply succeeds_ret].
Qed.

End Atomic.

(** X1. No partial emission: whichever call on the engine fails (a
    construction operation, [Return], [Val], [VarRef], [EndStmt], [Defer]
    or [Go]), the engine is left exactly as it was before the call: no
    operand is consumed and no statement is appended. *)
Theorem failed_call_changes_nothing (ext : Externals)
    (checkMatchFuncResults :
       Package → list internal.Elem → list types.Var → option error)
    (c : engineCall) (p p' : CodeBuilder) (e : error) :
  runCall ext checkMatchFuncResults c p = (Err e, p') → p' = p.
Proof.
  destruct c as [[]| | | | | |]; simpl.
  - apply atomic_Call.
  - apply atomic_operatorCall.
  - apply atomic_operatorCall.
  - apply atomic_Assign.
  - apply atomic_MapLit.
  - apply atomic_SliceLit.
  - apply atomic_ArrayLit.
  - apply atomic_MemberVal.
  - apply atomic_Return.
  - apply atomic_Val.
  - apply atomic_VarRef.
  - apply atomic_EndStmt.
  - unfold Defer, panic. by intros [= _ <-].
  - unfold Go, panic. by intros [= _ <-].
Qed.

Lemma failed_call_changes_nothing_witness :
  let p := sample.engine [sample.operand "a" sample.tInt;
                          sample.operand "s" sample.tString] in
  runCall sample.ext more.checkMatchFuncResults (DoOp (OpSliceLit None 2 [])) p
  = (Err MismatchedElementTypes, p).
Proof.
  intros p.
  destruct (runCall sample.ext more.checkMatchFuncResults
              (DoOp (OpSliceLit None 2 [])) p) as [r p'] eqn:E.
  assert (r = Err MismatchedElementTypes) as ->
    by (apply (f_equal fst) in E; vm_compute in E; congruence).
  f_equal. exact (failed_call_changes_nothing _ _ _ _ _ _ E).
Defined.

(** ** Calls *)

Lemma Get_beneath (rest args : internal.Stack) (callee : internal.Elem) :
  internal.Get (- (Z.of_nat (length args) + 1)) (rest ++ callee :: args) = Ok callee.
Proof.
  unfold internal.Get, internal.Len. rewrite length_app. cbn [length].
  set (i := Z.of_nat (length rest + S (length args))
            + - (Z.of_nat (length args) + 1)).
  assert (i = Z.of_nat (length rest)) as -> by (unfold i; lia).
  destruct (Z.ltb_spec (Z.of_nat (length rest)) 0); [lia|].
  destruct (Z.leb_spec (Z.of_nat (length rest + S (length args)))
              (Z.of_nat (length rest))); [lia|].
  cbn [orb]. by rewrite Nat2Z.id, list_lookup_middle.
Qed.

Lemma int_neg_small a : 0 <= a <= int_max → int_neg a = - a.
Proof. intros. unfold int_neg. apply int_wrap_id. int_lia. Qed.

Lemma Call_run (ext : Externals) (rest args : internal.Stack)
    (callee : internal.Elem) (ellipsis : list bool) (p : CodeBuilder) :
  internal.Len (stk p) < int_max →
  stk p = rest ++ callee :: args →
  Call ext (Z.of_nat (length args)) ellipsis p
  = match toFuncCall ext (pkg p) callee args
            (if flag_set ellipsis then 1 else token.NoPos) with
    | Ok ret => (Ok tt, set_stk (rest ++ [ret]) p)
    | Err e => (Err e, p)
    end.
Proof.
  intros Hmax Hs. set (n := Z.of_nat (length args)).
  assert (internal.Len (stk p) = Z.of_nat (length rest) + n + 1) as HL.
  { unfold internal.Len, n. rewrite Hs, length_app. simpl. lia. }
  unfold Call. unfold mbind at 1, M_bind at 1.
  rewrite (stk_GetArgs_app (rest ++ [callee]) args)
    by (by rewrite <- ?app_assoc).
  rewrite int_add_small by (unfold n in *; lia).
  rewrite int_neg_small by (unfold n in *; lia).
  unfold mbind, M_bind, stk_Get, gets, lift. rewrite Hs. unfold n.
  rewrite Get_beneath. cbn beta iota.
  destruct (toFuncCall ext (pkg p) callee args _) as [ret|]; [|done].
  unfold stk_Ret, stk_update. rewrite Hs.
  pose proof (Ret_app rest (callee :: args) ret) as HR.
  cbn [length] in HR. rewrite Nat2Z.inj_succ, <- Z.add_1_r in HR.
  by rewrite HR.
Qed.

(** X2. [Call n] takes as callee the operand that lies beneath the [n]
    arguments and hands the arguments over in the order they were pushed;
    the one operand that [toFuncCall] returns replaces callee and
    arguments. When [toFuncCall] fails the stack is untouched, and without
    an operand beneath the arguments the call fails on the stack. *)
Theorem Call_callee_beneath (ext : Externals) (rest args : internal.Stack)
    (callee : internal.Elem) (ellipsis : list bool) (p : CodeBuilder) :
  internal.Len (stk p) < int_max →
  let n := Z.of_nat (length args) in
  let hasEllipsis := if flag_set ellipsis then 1 else token.NoPos in
  (stk p = rest ++ callee :: args →
   Call ext n ellipsis p
   = match toFuncCall ext (pkg p) callee args hasEllipsis with
     | Ok ret => (Ok tt, set_stk (rest ++ [ret]) p)
     | Err e => (Err e, p)
     end)
  ∧ (stk p = args → Call ext n ellipsis p = (Err StackUnderflow, p)).
Proof.
  intros Hmax n hasEllipsis. split; intros Hs.
  - by apply Call_run.
  - assert (internal.Len (stk p) = n) as HL.
    { unfold internal.Len, n. by rewrite Hs. }
    unfold Call. unfold mbind at 1, M_bind at 1.
    rewrite (stk_GetArgs_app [] args) by done.
    rewrite int_add_small by (unfold n in *; lia).
    rewrite int_neg_small by (unfold n in *; lia).
    unfold mbind, M_bind, stk_Get, internal.Get. rewrite HL.
    destruct (Z.ltb_spec (n + - (n + 1)) 0); [done|lia].
Qed.

Lemma Call_callee_beneath_witness :
  let g := sample.operand "g" (types.Func_Type sample.f) in
  let p := sample.engine [sample.y; g; sample.x] in
  internal.Len (stk p) < int_max
  ∧ Call sample.ext 1 [] p
    = (Ok tt,
       sample.engine
         [sample.y;
          internal.NewElem (ast.CallExpr (ast.Ident "g") [ast.Ident "x"] 0)
            (Some (types.Tuple [sample.var "" sample.tInt;
                                sample.var "" sample.tString]))]).
Proof.
  intros g p.
  assert (internal.Len (stk p) < int_max) as Hmax by (vm_compute; reflexivity).
  split; [exact Hmax|].
  destruct (Call_callee_beneath sample.ext [sample.y] [sample.x] g [] p Hmax)
    as [H _].
  exact (H eq_refl).
Defined.

(** ** Operators *)

Lemma operatorCall_run (ext : Externals) (rest args : internal.Stack)
    (opname : token.Token → result string) (op : token.Token) (p : CodeBuilder) :
  stk p = rest ++ args →
  operatorCall ext (Z.of_nat (length args)) opname op p
  = match opname op with
    | Err e => (Err e, p)
    | Ok suffix =>
        match scope.Lookup (heap p) (builtin_Scope (pkg p))
                (prefix_Operator (pkg p) +:+ suffix) with
        | None => (Err (Panic "TODO: operator not matched"), p)
        | Some o =>
            match toObject ext (pkg p) o with
            | Err e => (Err e, p)
            | Ok callee =>
                match toFuncCall ext (pkg p) callee args token.NoPos with
                | Ok ret => (Ok tt, set_stk (rest ++ [ret]) p)
                | Err e => (Err e, p)
                end
            end
        end
    end.
Proof.
  intros Hs. unfold operatorCall.
  unfold mbind, M_bind, gets, lift. cbn beta iota.
  rewrite (stk_GetArgs_app rest args) by done. cbn beta iota.
  destruct (opname op) as [suffix|]; [|done].
  destruct (scope.Lookup _ _ _) as [o|]; [|done].
  destruct (toObject ext (pkg p) o) as [callee|]; [|done].
  destruct (toFuncCall ext (pkg p) callee args token.NoPos) as [ret|]; [|done].
  unfold stk_Ret, stk_update. by rewrite Hs, Ret_app.
Qed.

(** X3. [BinaryOp] and [UnaryOp] are calls of the function that the builtin
    package holds under the operator prefix followed by the name of the
    operator: with that function as callee beneath the operands, [Call]
    leaves the same result and the same stack. Without such a function the
    operator fails with "operator not matched", and a token beyond the
    table of names (beyond [GEQ] for a binary, beyond [XOR] for a unary
    operator, so for the unary [NOT]) fails as an index out of range; in
    both cases the operands stay on the stack. *)
Theorem operators_are_calls (ext : Externals) (rest args : internal.Stack)
    (binary : bool) (op : token.Token) (p : CodeBuilder) :
  internal.Len (stk p) + 1 < int_max →
  stk p = rest ++ args →
  length args = (if binary then 2 else 1)%nat →
  let run := if binary then BinaryOp ext op p else UnaryOp ext op p in
  let table := if binary then binaryOps else unaryOps in
  let last := if binary then token.GEQ else token.XOR in
  (op < 0 ∨ last < op → run = (Err (RuntimeError "index out of range"), p))
  ∧ (∀ suffix, table op = Ok suffix →
       match scope.Lookup (heap p) (builtin_Scope (pkg p))
               (prefix_Operator (pkg p) +:+ suffix) with
       | None => run = (Err (Panic "TODO: operator not matched"), p)
       | Some o =>
           ∀ callee, toObject ext (pkg p) o = Ok callee →
             let called := Call ext (Z.of_nat (length args)) []
                             (set_stk (rest ++ callee :: args) p) in
             run.1 = called.1
             ∧ (∀ u, run.1 = Ok u → stk run.2 = stk called.2)
             ∧ (∀ e, run.1 = Err e → run.2 = p)
       end).
Proof.
  intros Hmax Hs Hlen run table last.
  assert (run = operatorCall ext (Z.of_nat (length args)) table op p) as Hrun.
  { unfold run, table, BinaryOp, UnaryOp. rewrite Hlen. by destruct binary. }
  rewrite (operatorCall_run ext rest args table op p Hs) in Hrun.
  split.
  - intros Hop. rewrite Hrun.
    assert (table op = Err (RuntimeError "index out of range")) as ->; [|done].
    unfold table, last, token.GEQ, token.XOR, binaryOps, unaryOps in *.
    destruct binary.
    + destruct (Z.ltb_spec op 0), (Z.ltb_spec 46 op); try done; lia.
    + destruct (Z.ltb_spec op 0), (Z.ltb_spec 19 op); try done; lia.
  - intros suffix Hsuffix. rewrite Hsuffix in Hrun.
    destruct (scope.Lookup _ _ _) as [o|]; [|done].
    intros callee Hcallee called. rewrite Hcallee in Hrun.
    assert (called
            = match toFuncCall ext (pkg p) callee args token.NoPos with
              | Ok ret => (Ok tt, set_stk (rest ++ [ret]) (set_stk (rest ++ callee :: args) p))
              | Err e => (Err e, set_stk (rest ++ callee :: args) p)
              end) as Hcalled.
    { unfold called.
      rewrite (Call_run ext rest args callee [] (set_stk (rest ++ callee :: args) p));
        [done| |done].
      cbn [stk set_stk]. unfold internal.Len in *. rewrite Hs in Hmax.
      rewrite !length_app in *. cbn [length]. lia. }
    rewrite Hrun, Hcalled.
    destruct (toFuncCall ext (pkg p) callee args token.NoPos); split_and!; try done.
Qed.

Lemma operators_are_calls_witness :
  internal.Len (stk (sample.engine [sample.x])) + 1 < int_max
  ∧ (UnaryOp sample.ext token.SUB (sample.engine [sample.x])).1
    = (Call sample.ext 1 []
         (sample.engine
            [sample.operand "Gopo_Neg" (types.Func_Type sample.opNeg); sample.x])).1.
Proof.
  assert (internal.Len (stk (sample.engine [sample.x])) + 1 < int_max) as Hmax
    by (vm_compute; reflexivity).
  split; [exact Hmax|].
  destruct (operators_are_calls sample.ext [] [sample.x] false token.SUB
              (sample.engine [sample.x]) Hmax eq_refl eq_refl) as [_ H].
  specialize (H "Neg" eq_refl).
  exact (proj1 (H _ eq_refl)).
Defined.

(** ** Assignment of as many sources as targets *)

Section AssignParallel.

Context (ext : Externals).

Lemma pairBody_at pkg_ ls rs j l r :
  2 * Z.of_nat (length ls) <= int_max →
  ls !! j = Some l → rs !! j = Some r →
  pairBody ext pkg_ (ls ++ rs) (Z.of_nat (length ls)) (Z.of_nat j)
  = (assignMatchType ext pkg_ (internal.Typ l) (internal.Typ r);;
     Ok (internal.Val l, internal.Val r)).
Proof.
  intros Hmax Hl Hr. unfold pairBody.
  pose proof (lookup_lt_Some _ _ _ Hl).
  rewrite (index_lookup _ _ l) by (by apply lookup_app_l_Some).
  cbn [mbind result_bind].
  rewrite int_add_small by lia.
  replace (Z.of_nat (length ls) + Z.of_nat j) with (Z.of_nat (length ls + j)) by lia.
  rewrite (index_lookup _ _ r); [done|].
  rewrite lookup_app_r by lia. by replace (length ls + j - length ls)%nat with j by lia.
Qed.

Lemma pair_loop pkg_ args k done_l done_r ls rs :
  args = (done_l ++ ls) ++ done_r ++ rs →
  k = length (done_l ++ ls) →
  length done_l = length done_r → length ls = length rs →
  2 * Z.of_nat k <= int_max →
  for_range (Z.of_nat (length done_l)) (length ls)
    (pairBody ext pkg_ args (Z.of_nat k))
  = match matchPairs ext pkg_ ls rs with
    | Ok _ => Ok (zip (internal.Val <$> ls) (internal.Val <$> rs))
    | Err e => Err e
    end.
Proof.
  revert rs done_l done_r.
  induction ls as [|l ls IH]; intros [|r rs] done_l done_r Ha Hk Hd Hlen Hmax;
    try discriminate; [done|].
  cbn [length for_range matchPairs].
  assert (pairBody ext pkg_ args (Z.of_nat k) (Z.of_nat (length done_l))
          = (assignMatchType ext pkg_ (internal.Typ l) (internal.Typ r);;
             Ok (internal.Val l, internal.Val r))) as ->.
  { rewrite Ha, Hk. apply pairBody_at; [lia| |].
    - by apply list_lookup_middle.
    - rewrite Hd. by apply list_lookup_middle. }
  destruct (assignMatchType ext pkg_ (internal.Typ l) (internal.Typ r)) as [[]|];
    [|done].
  cbn [mbind result_bind].
  replace (Z.of_nat (length done_l) + 1)
    with (Z.of_nat (length (done_l ++ [l]))) by (rewrite length_app; simpl; lia).
  rewrite (IH rs (done_l ++ [l]) (done_r ++ [r])).
  - by destruct (matchPairs ext pkg_ ls rs).
  - by rewrite Ha, <- !app_assoc.
  - by rewrite Hk, <- !app_assoc.
  - rewrite !length_app. simpl. lia.
  - simpl in Hlen. lia.
  - done.
Qed.

Lemma Assign_parallel_run rest ls rs v p :
  stk p = rest ++ ls ++ rs →
  length ls = length rs →
  internal.Len (stk p) <= int_max →
  Assign_rhs (Z.of_nat (length ls)) v = Z.of_nat (length ls) →
  Assign ext (Z.of_nat (length ls)) v p
  = match matchPairs ext (pkg p) ls rs with
    | Ok _ =>
        (Ok tt,
         append_stmt
           (ast.AssignStmt (internal.Val <$> ls) token.ASSIGN (internal.Val <$> rs))
           (set_stk rest p))
    | Err e => (Err e, p)
    end.
Proof.
  intros Hs Hlen Hmax Hv.
  assert (internal.Len (stk p)
          = Z.of_nat (length rest) + 2 * Z.of_nat (length ls)) as HL.
  { unfold internal.Len. rewrite Hs, !length_app. lia. }
  assert (int_add (Z.of_nat (length ls)) (Z.of_nat (length ls))
          = Z.of_nat (length (ls ++ rs))) as Hw.
  { rewrite int_add_small by lia. rewrite length_app. lia. }
  unfold Assign. rewrite Hv, Hw.
  unfold mbind at 1, M_bind at 1.
  rewrite (stk_GetArgs_app rest (ls ++ rs)) by done.
  unfold make, lift, gets.
  destruct (Z.ltb_spec (Z.of_nat (length ls)) 0); [lia|].
  rewrite Z.eqb_refl.
  unfold mbind, M_bind. cbn beta iota.
  rewrite Nat2Z.id.
  change (for_range 0 (length ls) _)
    with (for_range 0 (length ls)
            (pairBody ext (pkg p) (ls ++ rs) (Z.of_nat (length ls)))).
  pose proof (pair_loop (pkg p) (ls ++ rs) (length ls) [] [] ls rs
                eq_refl eq_refl eq_refl Hlen) as HP.
  cbn [app length] in HP. change (Z.of_nat 0) with 0 in HP.
  rewrite HP by lia.
  destruct (matchPairs ext (pkg p) ls rs); [|done].
  unfold mret, M_ret, modify. cbn beta iota.
  rewrite (stk_PopN_app rest (ls ++ rs)) by done.
  rewrite fst_zip, snd_zip by (rewrite !length_fmap; lia).
  by destruct p as [? [[]]].
Qed.

End AssignParallel.

(** X4. With as many sources as targets (the count of sources left out or
    given), on a stack that holds the targets and above them the sources:
    [Assign] checks the pairs of a target and the source at the same
    position in their order. When every pair passes, it pops the operands
    and appends one assignment statement with the target expressions on
    the left and the source expressions on the right, each in the order of
    the stack; otherwise it fails with the error of the first pair that
    does not pass and leaves the engine as it was. *)
Theorem Assign_parallel (ext : Externals) (rest ls rs : internal.Stack)
    (v : list Z) (p : CodeBuilder) :
  stk p = rest ++ ls ++ rs →
  length ls = length rs →
  internal.Len (stk p) <= int_max →
  v = [] ∨ (∃ v', v = Z.of_nat (length rs) :: v') →
  Assign ext (Z.of_nat (length ls)) v p
  = match matchPairs ext (pkg p) ls rs with
    | Ok _ =>
        (Ok tt,
         append_stmt
           (ast.AssignStmt (internal.Val <$> ls) token.ASSIGN (internal.Val <$> rs))
           (set_stk rest p))
    | Err e => (Err e, p)
    end.
Proof.
  intros Hs Hlen Hmax Hv. apply Assign_parallel_run; try done.
  destruct Hv as [->|[v' ->]]; [done|]. simpl. by rewrite Hlen.
Qed.

Lemma Assign_parallel_witness :
  let a := sample.target "a" sample.tInt in
  let b := sample.target "b" sample.tString in
  let s := sample.operand "s" sample.tString in
  let p := sample.engine [sample.y; a; b; sample.x; s] in
  internal.Len (stk p) <= int_max
  ∧ Assign sample.ext 2 [] p
    = (Ok tt,
       append_stmt
         (ast.AssignStmt [ast.Ident "a"; ast.Ident "b"] token.ASSIGN
            [ast.Ident "x"; ast.Ident "s"])
         (sample.engine [sample.y])).
Proof.
  intros a b s p.
  assert (internal.Len (stk p) <= int_max) as Hmax by (vm_compute; discriminate).
  split; [exact Hmax|].
  exact (Assign_parallel sample.ext [sample.y] [a; b] [sample.x; s] [] p
           eq_refl eq_refl Hmax (or_introl eq_refl)).
Defined.

(** ** Return *)

Lemma collect_loop (done_ todo : list internal.Elem) :
  for_range (Z.of_nat (length done_)) (length todo)
    (λ i, a ← index (done_ ++ todo) i; Ok (internal.Val a))
  = Ok (internal.Val <$> todo).
Proof.
  revert done_. induction todo as [|a todo IH]; intros done_; [done|].
  cbn [length for_range].
  rewrite (index_lookup _ _ a) by (by apply list_lookup_middle).
  cbn [mbind result_bind].
  replace (Z.of_nat (length done_) + 1)
    with (Z.of_nat (length (done_ ++ [a]))) by (rewrite length_app; simpl; lia).
  specialize (IH (done_ ++ [a])). rewrite <- app_assoc in IH. cbn [app] in IH.
  by rewrite IH.
Qed.

(** X5. Inside the body of a function, on a stack that holds [n] values on
    top: when the check against the results of the function passes,
    [Return n] pops the [n] values and appends one return statement with
    their expressions in the order of the stack ([Return 0] one without
    results, and the stack as it was); when the check gives an error, it
    fails with that error. Outside a function it fails before it looks at
    the stack. A failed call leaves the engine as it was. *)
Theorem Return_statement
    (checkMatchFuncResults : Package → list internal.Elem → list types.Var
                             → option error)
    (rest args : internal.Stack) (p : CodeBuilder) :
  stk p = rest ++ args →
  Return checkMatchFuncResults (Z.of_nat (length args)) p
  = match fn (current p) with
    | None => (Err (RuntimeError "nil pointer dereference"), p)
    | Some f =>
        match types.Func_Type f with
        | types.Signature sig =>
            match checkMatchFuncResults (pkg p) args (types.sig_results sig) with
            | Some err => (Err err, p)
            | None =>
                (Ok tt,
                 append_stmt (ast.ReturnStmt (internal.Val <$> args))
                   (set_stk rest p))
            end
        | _ =>
            (Err (RuntimeError
                    "interface conversion: types.Type is not *types.Signature"), p)
        end
    end.
Proof.
  intros Hs. unfold Return. unfold mbind at 1, M_bind at 1, gets at 1.
  cbn beta iota. destruct (fn (current p)) as [f|]; [|done].
  unfold mbind at 1, M_bind at 1, lift at 1.
  destruct (types.Func_Type f) as [| | | | | | | | | sig|] eqn:Hf; try done.
  cbn [as_Signature]. cbn beta iota.
  unfold mbind at 1, M_bind at 1.
  rewrite (stk_GetArgs_app rest args) by done.
  unfold mbind at 1, M_bind at 1, gets at 1. cbn beta iota.
  destruct (checkMatchFuncResults _ _ _); [done|].
  destruct (Z.ltb_spec 0 (Z.of_nat (length args))) as [Hn|Hn].
  - unfold make, lift, mbind, M_bind.
    destruct (Z.ltb_spec (Z.of_nat (length args)) 0); [lia|].
    rewrite Nat2Z.id.
    change (for_range 0 (length args) _)
      with (for_range (Z.of_nat (length (@nil internal.Elem))) (length args)
              (λ i, a ← index ([] ++ args) i; Ok (internal.Val a))).
    rewrite (collect_loop [] args).
    rewrite (stk_PopN_app rest args) by done.
    unfold mret, M_ret, modify. done.
  - destruct args; [|simpl in Hn; lia].
    unfold mbind, M_bind, mret, M_ret, modify.
    rewrite app_nil_r in Hs. rewrite <- Hs.
    by destruct p.
Qed.

Lemma Return_statement_witness :
  Return more.checkMatchFuncResults 1 (more.inFunc sample.opNeg [sample.y; sample.x])
  = (Ok tt,
     append_stmt (ast.ReturnStmt [ast.Ident "x"])
       (more.inFunc sample.opNeg [sample.y])).
Proof.
  exact (Return_statement more.checkMatchFuncResults [sample.y] [sample.x]
           (more.inFunc sample.opNeg [sample.y; sample.x]) eq_refl).
Defined.
